(** * pycwl: a CloudWatch Logs handler with per-stream batching queues

    Shallow embedding of [pycwl/__init__.py] (class [CloudWatchLogHandler])
    and the properties of its submitter, dispatcher, stream worker and
    flush.

    The handler is multi-threaded: [emit] and [flush] run on caller
    threads, [batch_sender] runs on one thread per stream.  The embedding
    is an interleaving semantics: a [State] holds the handler object, the
    frames of the worker threads and the requests the remote store has
    received; an [event] is one atomic action of one thread; [step] is
    the effect of an event and is undefined ([None]) when the thread
    cannot take it (a [get] on an empty queue blocks, a [join] on a queue
    with unfinished tasks blocks).

    Granularity.  One [emit] is one event: [logging.Handler.handle] calls
    [emit] with the handler's lock held, so calls of [emit] do not
    interleave with each other, and what a worker can see of an [emit] is
    the single [put].  The first loop of [flush] is one event, each
    [join] of its second loop is another, and one [flush] runs at a
    time.  A worker takes four kinds of steps per item: open a batch,
    [get], check (which may submit), [task_done].  Clock readings are
    event parameters; any reading is allowed. *)

From Stdlib Require Import ZArith QArith Ascii String.
From stdpp Require Import gmap strings list fin_maps.

Open Scope Z_scope.

(** ** Data *)

(** The attributes of a [logging.LogRecord] that [emit] reads. *)
Record LogRecord := {
  rec_name : string;      (* message.name, the stream name *)
  rec_created : Q;        (* message.created, seconds *)
  rec_msg : string        (* message.msg *)
}.

(** [dict(timestamp=..., message=...)], line 94. *)
Record QueuedMessage := {
  timestamp : Z;
  message : string
}.

(** What a queue holds: a message dict or the class constant [END = 1]. *)
Inductive item :=
| Msg (m : QueuedMessage)
| END.

(** Exceptions that cross a function boundary in the module. *)
Inductive exn :=
| ClientError (code : string) (text : string)  (* botocore ClientError *)
| TransportError (what : string)   (* anything else the client raises *)
| DeliveryFailure                  (* Exception("Failed to deliver logs: ...") *)
| KeyError
| TypeError
| ValueError
| AttributeError.

Inductive outcome (A : Type) : Type :=
| Return (a : A)
| Raise (e : exn).
Arguments Return {A} a.
Arguments Raise {A} e.

(** ** The remote store, as the handler sees it *)

(** Keyword arguments of [put_log_events]. *)
Record Request := {
  logGroupName : string;
  logStreamName : string;
  logEvents : list QueuedMessage;
  sequenceToken : option string     (* key absent when [None] *)
}.

(** The two keys of the response dict the handler looks at. *)
Record Response := {
  nextSequenceToken : option string;  (* [None]: key missing *)
  rejectedLogEventsInfo : bool        (* key present *)
}.

Record Call := {
  request : Request;
  reply : outcome Response
}.

(** The boto3 client is external.  Its answer to a request may depend on
    every request made before. *)
Record Client := {
  put_log_events : list Call -> Request -> outcome Response;
  create_log_stream : string -> string -> outcome unit
}.

(** ** Handler, queues and worker frames *)

Record Config := {
  log_group : string;
  use_queues : bool;
  send_interval : Z;
  max_batch_size : Z;
  max_batch_count : Z
}.

(** A [Queue()]: its items, the [unfinished_tasks] counter behind
    [task_done]/[join], and a history variable [put_history] (not program
    state) listing every item ever put, oldest first. *)
Record Queue := {
  items : list item;
  unfinished_tasks : Z;
  put_history : list item
}.

Definition new_queue : Queue :=
  {| items := []; unfinished_tasks := 0; put_history := [] |}.

Definition put (x : item) (q : Queue) : Queue :=
  {| items := items q ++ [x];
     unfinished_tasks := unfinished_tasks q + 1;
     put_history := put_history q ++ [x] |}.

(** Control points of [batch_sender]. *)
Inductive pc :=
| AtLoopHead        (* line 116, [while msg != self.END] *)
| AtGet             (* line 123, [queue.get] *)
| AtCheck           (* line 126, the [if] *)
| AtTaskDoneBreak   (* line 131, [task_done] then [break] *)
| AtTaskDoneCont    (* line 137, [task_done] then next inner iteration *)
| Left.             (* line 138, the thread is over *)

(** The frame of one [batch_sender] thread. *)
Record Worker := {
  w_pc : pc;
  w_died : option exn;          (* uncaught exception: the thread is dead *)
  w_send_interval : Z;
  w_max_batch_size : Z;
  w_max_batch_count : Z;
  w_msg : option item;          (* [msg]; [None] is Python's None *)
  cur_batch : list QueuedMessage;
  cur_batch_size : Z;
  cur_batch_msg_count : Z;
  cur_batch_deadline : Z
}.

Record State := {
  cfg : Config;
  queues : gmap string Queue;                   (* self.queues *)
  sequence_tokens : gmap string (option string);(* self.sequence_tokens *)
  threads : gmap string Worker;                 (* started by [emit] *)
  calls : list Call;                            (* the remote's log *)
  joining : option (list string)  (* a [flush] in its second loop *)
}.

Definition set_queues (f : gmap string Queue -> gmap string Queue) (st : State) : State :=
  {| cfg := cfg st; queues := f (queues st); sequence_tokens := sequence_tokens st;
     threads := threads st; calls := calls st; joining := joining st |}.

Definition set_sequence_tokens (f : gmap string (option string) -> gmap string (option string))
    (st : State) : State :=
  {| cfg := cfg st; queues := queues st; sequence_tokens := f (sequence_tokens st);
     threads := threads st; calls := calls st; joining := joining st |}.

Definition set_threads (f : gmap string Worker -> gmap string Worker) (st : State) : State :=
  {| cfg := cfg st; queues := queues st; sequence_tokens := sequence_tokens st;
     threads := f (threads st); calls := calls st; joining := joining st |}.

Definition set_calls (f : list Call -> list Call) (st : State) : State :=
  {| cfg := cfg st; queues := queues st; sequence_tokens := sequence_tokens st;
     threads := threads st; calls := f (calls st); joining := joining st |}.

Definition set_joining (j : option (list string)) (st : State) : State :=
  {| cfg := cfg st; queues := queues st; sequence_tokens := sequence_tokens st;
     threads := threads st; calls := calls st; joining := j |}.

(** [__init__], after [create_log_group] returned. *)
Definition init (c : Config) : State :=
  {| cfg := c; queues := ∅; sequence_tokens := ∅; threads := ∅;
     calls := []; joining := None |}.

(** ** Helpers of the source *)

(** [size(msg)], line 112. *)
Definition size (m : QueuedMessage) : Z :=
  Z.of_nat (String.length (message m)) + 26.

(** [sum(size(msg) for msg in cur_batch)]. *)
Definition batch_cost (b : list QueuedMessage) : Z :=
  foldr (fun m acc => size m + acc) 0 b.

Fixpoint has_space (s : string) : bool :=
  match s with
  | EmptyString => false
  | String c s' => if Ascii.eqb c " " then true else has_space s'
  end.

(** [text.rsplit(" ", 1)[-1]]: what follows the last space, the whole
    text when it has none. *)
Fixpoint rsplit_last (s : string) : string :=
  match s with
  | EmptyString => EmptyString
  | String c s' =>
      if has_space s' then rsplit_last s'
      else if Ascii.eqb c " " then s' else s
  end.

(** [int(message.created * 1000)]: truncation towards zero. *)
Definition to_millis (created : Q) : Z :=
  let x := Qred (created * 1000)%Q in
  Z.quot (Qnum x) (Z.pos (Qden x)).

(** The codes of line 70. *)
Definition stale_token_code (code : string) : bool :=
  (code =? "DataAlreadyAcceptedException")%string
  || (code =? "InvalidSequenceTokenException")%string.

Definition with_token (kwargs : Request) (t : string) : Request :=
  {| logGroupName := logGroupName kwargs; logStreamName := logStreamName kwargs;
     logEvents := logEvents kwargs; sequenceToken := Some t |}.

Section Handler.

Variable client : Client.

(** One call [self.cwl_client.put_log_events] with the keyword arguments
    [kwargs]: the answer, and the state with the call recorded. *)
Definition call_put (st : State) (kwargs : Request) : outcome Response * State :=
  let r := put_log_events client (calls st) kwargs in
  (r, set_calls (fun l => l ++ [{| request := kwargs; reply := r |}]) st).

(** [_idempotent_create(self.cwl_client.create_log_stream, ...)]. *)
Definition _idempotent_create (group stream : string) : outcome unit :=
  match create_log_stream client group stream with
  | Return _ => Return tt
  | Raise (ClientError code text) =>
      if (code =? "ResourceAlreadyExistsException")%string then Return tt
      else Raise (ClientError code text)
  | Raise e => Raise e
  end.

(** [_submit_batch], lines 60-82. *)
Definition _submit_batch (st : State) (batch : list QueuedMessage) (stream_name : string)
    : outcome unit * State :=
  match sequence_tokens st !! stream_name with
  | None => (Raise KeyError, st)
  | Some token =>
      let kwargs := {| logGroupName := log_group (cfg st); logStreamName := stream_name;
                       logEvents := batch; sequenceToken := token |} in
      let '(r1, st1) := call_put st kwargs in
      let '(r, st2) :=
        match r1 with
        | Raise (ClientError code text) =>
            if stale_token_code code
            then call_put st1 (with_token kwargs (rsplit_last text))
            else (r1, st1)
        | _ => (r1, st1)
        end in
      match r with
      | Raise e => (Raise e, st2)
      | Return response =>
          if rejectedLogEventsInfo response then (Raise DeliveryFailure, st2)
          else match nextSequenceToken response with
               | None => (Raise KeyError, st2)
               | Some t =>
                   (Return tt, set_sequence_tokens (<[stream_name := Some t]>) st2)
               end
      end
  end.

(** The frame [emit] hands to [threading.Thread(target=self.batch_sender,
    args=...)]: line 111 has run, nothing else. *)
Definition spawn (c : Config) : Worker :=
  {| w_pc := AtLoopHead; w_died := None;
     w_send_interval := send_interval c;
     w_max_batch_size := max_batch_size c;
     w_max_batch_count := max_batch_count c;
     w_msg := None;
     cur_batch := []; cur_batch_size := 0; cur_batch_msg_count := 0;
     cur_batch_deadline := 0 |}.

(** [emit], lines 84-107.  The exception, if any, reaches the caller; the
    assignments made before it stay. *)
Definition emit (st : State) (record : LogRecord) : outcome unit * State :=
  let stream_name := rec_name record in
  let '(r, st1) :=
    match sequence_tokens st !! stream_name with
    | Some _ => (Return tt, st)
    | None =>
        match _idempotent_create (log_group (cfg st)) stream_name with
        | Return _ => (Return tt, set_sequence_tokens (<[stream_name := None]>) st)
        | Raise e => (Raise e, st)
        end
    end in
  match r with
  | Raise e => (Raise e, st1)
  | Return _ =>
      let msg := {| timestamp := to_millis (rec_created record);
                    message := rec_msg record |} in
      if use_queues (cfg st1) then
        let st2 :=
          match queues st1 !! stream_name with
          | Some _ => st1
          | None =>
              set_threads (<[stream_name := spawn (cfg st1)]>)
                (set_queues (<[stream_name := new_queue]>) st1)
          end in
        (Return tt, set_queues (alter (put (Msg msg)) stream_name) st2)
      else _submit_batch st1 [msg] stream_name
  end.

(** *** The stream worker, [batch_sender], lines 109-138 *)

Definition set_pc (p : pc) (w : Worker) : Worker :=
  {| w_pc := p; w_died := w_died w;
     w_send_interval := w_send_interval w; w_max_batch_size := w_max_batch_size w;
     w_max_batch_count := w_max_batch_count w; w_msg := w_msg w;
     cur_batch := cur_batch w; cur_batch_size := cur_batch_size w;
     cur_batch_msg_count := cur_batch_msg_count w;
     cur_batch_deadline := cur_batch_deadline w |}.

Definition die (e : exn) (w : Worker) : Worker :=
  {| w_pc := w_pc w; w_died := Some e;
     w_send_interval := w_send_interval w; w_max_batch_size := w_max_batch_size w;
     w_max_batch_count := w_max_batch_count w; w_msg := w_msg w;
     cur_batch := cur_batch w; cur_batch_size := cur_batch_size w;
     cur_batch_msg_count := cur_batch_msg_count w;
     cur_batch_deadline := cur_batch_deadline w |}.

Definition set_msg (x : option item) (w : Worker) : Worker :=
  {| w_pc := w_pc w; w_died := w_died w;
     w_send_interval := w_send_interval w; w_max_batch_size := w_max_batch_size w;
     w_max_batch_count := w_max_batch_count w; w_msg := x;
     cur_batch := cur_batch w; cur_batch_size := cur_batch_size w;
     cur_batch_msg_count := cur_batch_msg_count w;
     cur_batch_deadline := cur_batch_deadline w |}.

Definition set_batch (b : list QueuedMessage) (sz n : Z) (w : Worker) : Worker :=
  {| w_pc := w_pc w; w_died := w_died w;
     w_send_interval := w_send_interval w; w_max_batch_size := w_max_batch_size w;
     w_max_batch_count := w_max_batch_count w; w_msg := w_msg w;
     cur_batch := b; cur_batch_size := sz; cur_batch_msg_count := n;
     cur_batch_deadline := cur_batch_deadline w |}.

Definition set_deadline (d : Z) (w : Worker) : Worker :=
  {| w_pc := w_pc w; w_died := w_died w;
     w_send_interval := w_send_interval w; w_max_batch_size := w_max_batch_size w;
     w_max_batch_count := w_max_batch_count w; w_msg := w_msg w;
     cur_batch := cur_batch w; cur_batch_size := cur_batch_size w;
     cur_batch_msg_count := cur_batch_msg_count w;
     cur_batch_deadline := d |}.

(** Lines 116-120 with the clock reading [now]: leave the loop on [END],
    else open a batch holding the message that closed the previous one. *)
Definition batch_sender_open (now : Z) (w : Worker) : Worker :=
  match w_msg w with
  | Some END => set_pc Left w
  | other =>
      let b := match other with Some (Msg m) => [m] | _ => [] end in
      set_pc AtGet
        (set_deadline (now + w_send_interval w)
           (set_batch b (batch_cost b) (Z.of_nat (length b)) w))
  end.

(** [queue.task_done()]. *)
Definition task_done (q : Queue) : outcome Queue :=
  let unfinished := unfinished_tasks q - 1 in
  if unfinished <? 0 then Raise ValueError
  else Return {| items := items q; unfinished_tasks := unfinished;
                 put_history := put_history q |}.

(** The handler [except queue.Empty: pass] of line 124.  Inside
    [batch_sender] the name [queue] is the parameter, a [Queue] instance;
    the module that defines [Empty] is never bound to a name (lines 5-8
    import the class only).  [empty_attr] says whether the attribute
    lookup [queue.Empty] on the instance succeeds.  CPython's [Queue]
    class has no such attribute: the lookup raises AttributeError while
    the timeout is being handled and the thread dies.  With
    [empty_attr = true] the timeout is swallowed and [msg] keeps the
    value of the previous iteration. *)
Variable empty_attr : bool.

Definition cpython_empty_attr : bool := false.

Inductive action :=
| Open (now : Z)     (* lines 116-120; [now] is [time.time()] *)
| Get                (* line 123 returns an item *)
| Timeout            (* line 123 raises Empty *)
| Check (now : Z)    (* lines 126-136 up to [task_done]; [now] is the
                        [time.time()] of line 129, read only if reached *)
| TaskDone.          (* line 131 and [break], or line 137 *)

Definition put_worker (s : string) (w : Worker) (st : State) : State :=
  set_threads (<[s := w]>) st.

Definition put_queue (s : string) (q : Queue) (st : State) : State :=
  set_queues (<[s := q]>) st.

(** Lines 130 (then on to 131) for the worker of stream [s]. *)
Definition close_batch (s : string) (w : Worker) (st : State) : State :=
  match _submit_batch st (cur_batch w) s with
  | (Return _, st') => put_worker s (set_pc AtTaskDoneBreak w) st'
  | (Raise e, st') => put_worker s (die e w) st'
  end.

(** Lines 126-136.  The disjunction is evaluated left to right:
    [msg == self.END] first, so [size] is never applied to [END]; with
    [msg] still [None], [size(msg)] raises TypeError.  A message dict is
    truthy, so the [elif msg] branch is taken whenever the batch is not
    closed. *)
Definition batch_sender_check (s : string) (now : Z) (w : Worker) (st : State) : State :=
  match w_msg w with
  | Some END => close_batch s w st
  | None => put_worker s (die TypeError w) st      (* size(None) *)
  | Some (Msg m) =>
      if (cur_batch_size w + size m >? w_max_batch_size w)
         || (cur_batch_msg_count w >=? w_max_batch_count w)
         || (now >=? cur_batch_deadline w)
      then close_batch s w st
      else
        put_worker s
          (set_pc AtTaskDoneCont
             (set_batch (cur_batch w ++ [m]) (cur_batch_size w + size m)
                (cur_batch_msg_count w + 1) w)) st
  end.

(** One step of the worker of stream [s].  A dead or finished thread
    takes none.  [Get] needs an item in the queue; [Timeout] needs the
    queue to be empty (a non-empty queue answers [get] at once, whatever
    the timeout).  An exception of [_submit_batch] or [task_done] is not
    caught in [batch_sender]: it ends the thread where it stands. *)
Definition batch_sender (s : string) (a : action) (st : State) : option State :=
  w ← threads st !! s;
  q ← queues st !! s;
  match w_died w, w_pc w, a with
  | None, AtLoopHead, Open now => Some (put_worker s (batch_sender_open now w) st)
  | None, AtGet, Get =>
      match items q with
      | x :: rest =>
          Some (put_worker s (set_pc AtCheck (set_msg (Some x) w))
                  (put_queue s {| items := rest;
                                  unfinished_tasks := unfinished_tasks q;
                                  put_history := put_history q |} st))
      | [] => None
      end
  | None, AtGet, Timeout =>
      match items q with
      | [] => Some (put_worker s
                      (if empty_attr then set_pc AtCheck w else die AttributeError w) st)
      | _ :: _ => None
      end
  | None, AtCheck, Check now => Some (batch_sender_check s now w st)
  | None, AtTaskDoneBreak, TaskDone =>
      match task_done q with
      | Return q' => Some (put_worker s (set_pc AtLoopHead w) (put_queue s q' st))
      | Raise e => Some (put_worker s (die e w) st)
      end
  | None, AtTaskDoneCont, TaskDone =>
      match task_done q with
      | Return q' => Some (put_worker s (set_pc AtGet w) (put_queue s q' st))
      | Raise e => Some (put_worker s (die e w) st)
      end
  | _, _, _ => None
  end.

(** *** [flush], lines 140-147 *)

(** First loop, and the list the second loop walks: the queues that
    exist when [flush] is called. *)
Definition flush_put (st : State) : State :=
  set_joining (Some (map_to_list (queues st)).*1) (set_queues (fmap (put END)) st).

(** One [queue.join()] of the second loop returns. *)
Definition flush_join (st : State) : option State :=
  match joining st with
  | Some (s :: rest) =>
      q ← queues st !! s;
      if unfinished_tasks q =? 0 then Some (set_joining (Some rest) st) else None
  | _ => None
  end.

(** ** Interleavings *)

(** [FlushCall] is lines 142-144, [FlushJoin] one iteration of lines
    145-146, [FlushReturn] the return of [flush].  The exception an
    [emit] may raise goes to its caller; the state keeps what [emit] did
    before. *)

Inductive event :=
| Emit (record : LogRecord)
| FlushCall
| FlushJoin
| FlushReturn
| Work (s : string) (a : action).

Definition step (st : State) (e : event) : option State :=
  match e with
  | Emit record => Some (emit st record).2
  | FlushCall =>
      match joining st with
      | None => Some (flush_put st)
      | Some _ => None
      end
  | FlushJoin => flush_join st
  | FlushReturn =>
      match joining st with
      | Some [] => Some (set_joining None st)
      | _ => None
      end
  | Work s a => batch_sender s a st
  end.

Fixpoint run (st : State) (tr : list event) : option State :=
  match tr with
  | [] => Some st
  | e :: tr' => st' ← step st e; run st' tr'
  end.

End Handler.

(** ** What the remote store has accepted *)

(** The token a call handed back, when [_submit_batch] got past both of
    its checks on the response (lines 77 and 81). *)
Definition accepted (c : Call) : option string :=
  match reply c with
  | Return response =>
      if rejectedLogEventsInfo response then None else nextSequenceToken response
  | Raise _ => None
  end.

Definition on_stream (s : string) (c : Call) : bool :=
  (logStreamName (request c) =? s)%string.

(** [nextSequenceToken] of the latest accepted call on the stream. *)
Definition last_token (s : string) (l : list Call) : option string :=
  last (omap (fun c => if on_stream s c then accepted c else None) l).

(** The batches of the accepted calls on the stream, oldest first. *)
Definition delivered_batches (s : string) (l : list Call) : list (list QueuedMessage) :=
  omap (fun c => if on_stream s c
                 then match accepted c with
                      | Some _ => Some (logEvents (request c))
                      | None => None
                      end
                 else None) l.

Definition delivered (s : string) (l : list Call) : list QueuedMessage :=
  concat (delivered_batches s l).

(** The request [_submit_batch] starts with. *)
Definition first_request (st : State) (batch : list QueuedMessage) (s : string)
    (token : option string) : Request :=
  {| logGroupName := log_group (cfg st); logStreamName := s;
     logEvents := batch; sequenceToken := token |}.

(** ** Invariants of the reachable states *)


(** The first lines of [emit] (89-92): the stream gets a token entry if
    it has none. *)
Definition registered (st : State) (s : string) : State :=
  match sequence_tokens st !! s with
  | Some _ => st
  | None => set_sequence_tokens (<[s := None]>) st
  end.

(** A batch within both limits, or of at most one message. *)
Definition batch_ok (c : Config) (b : list QueuedMessage) : Prop :=
  (length b ≤ 1)%nat ∨
  (batch_cost b ≤ max_batch_size c ∧ Z.of_nat (length b) ≤ max_batch_count c).

(** The bookkeeping of a worker frame: its limits are the handler's, its
    two counters describe [cur_batch], and [cur_batch] is [batch_ok]. *)
Definition worker_ok (c : Config) (w : Worker) : Prop :=
  w_max_batch_size w = max_batch_size c ∧
  w_max_batch_count w = max_batch_count c ∧
  cur_batch_size w = batch_cost (cur_batch w) ∧
  cur_batch_msg_count w = Z.of_nat (length (cur_batch w)) ∧
  batch_ok c (cur_batch w).

Definition batches_inv (c : Config) (st : State) : Prop :=
  cfg st = c ∧
  (∀ s w, threads st !! s = Some w -> worker_ok c w) ∧
  Forall (fun call => batch_ok c (logEvents (request call))) (calls st).

(** A worker thread that will not run again: it left its loop or an
    exception ended it. *)
Definition stopped (w : Worker) : Prop :=
  w_pc w = Left ∨ is_Some (w_died w).

(** Queues exist in queue mode only, and for registered streams only. *)
Definition queue_mode_inv (st : State) : Prop :=
  ∀ s, is_Some (queues st !! s) ->
       use_queues (cfg st) = true ∧ is_Some (sequence_tokens st !! s).

(** What remains true of stream [s] after its worker [w] stopped with
    [q] as its queue and [l] as the call log: the frame and the calls on
    [s] are frozen and the queue only grows. *)
Definition stranded (s : string) (w : Worker) (q : Queue) (l : list Call) (st : State) : Prop :=
  threads st !! s = Some w ∧
  use_queues (cfg st) = true ∧
  filter (fun call => on_stream s call = true) (calls st)
    = filter (fun call => on_stream s call = true) l ∧
  ∃ q' more, queues st !! s = Some q' ∧ items q' = items q ++ more.

(** *** Empty batches *)





(** *** Draining *)

(** The items a worker has taken off its queue that are not part of an
    accepted call yet.  At the control points where [cur_batch] is the
    batch being built these are its messages (and the item just dequeued,
    before the check); after a batch was closed, only [msg] is left. *)
Definition in_hand (w : Worker) : list item :=
  match w_pc w with
  | AtGet | AtTaskDoneCont => Msg <$> cur_batch w
  | AtCheck => (Msg <$> cur_batch w) ++ option_list (w_msg w)
  | AtLoopHead | AtTaskDoneBreak | Left => option_list (w_msg w)
  end.

(** Dequeued items for which [task_done] is still to be called. *)
Definition held (w : Worker) : Z :=
  match w_pc w with
  | AtCheck | AtTaskDoneBreak | AtTaskDoneCont => 1
  | _ => 0
  end.

(** Queue [q], its worker [w] and the messages [d] delivered on the
    stream account for every item ever put, in order, and the counter of
    unfinished tasks counts the items not yet acknowledged. *)
Definition drain_ok (q : Queue) (w : Worker) (d : list QueuedMessage) : Prop :=
  put_history q = (Msg <$> d) ++ in_hand w ++ items q ∧
  unfinished_tasks q = Z.of_nat (length (items q)) + held w.

Definition drain_inv_at (st : State) (s : string) : Prop :=
  match queues st !! s with
  | None => threads st !! s = None ∧ delivered s (calls st) = []
  | Some q => ∃ w, threads st !! s = Some w ∧ drain_ok q w (delivered s (calls st))
  end.

Definition drain_inv (st : State) : Prop :=
  use_queues (cfg st) = true -> ∀ s, drain_inv_at st s.



(** ** Scenarios *)

Definition cfg_default : Config :=
  {| log_group := "pycwl"; use_queues := true; send_interval := 60;
     max_batch_size := 1024 * 1024; max_batch_count := 10000 |}.

Definition cfg_sync : Config :=
  {| log_group := "pycwl"; use_queues := false; send_interval := 60;
     max_batch_size := 1024 * 1024; max_batch_count := 10000 |}.

(** Small limits: 60 bytes, 2 messages. *)
Definition cfg_small : Config :=
  {| log_group := "pycwl"; use_queues := true; send_interval := 60;
     max_batch_size := 60; max_batch_count := 2 |}.

(** A remote store that accepts everything; its tokens count the calls. *)
Definition accepting_client : Client :=
  {| put_log_events := fun history _ =>
       Return {| nextSequenceToken :=
                   Some (match length history with
                         | O => "t1" | 1%nat => "t2" | _ => "t3"
                         end)%string;
                 rejectedLogEventsInfo := false |};
     create_log_stream := fun _ _ => Return tt |}.

(** A remote store that rejects a request without token and names the
    token it expects. *)
Definition stale_client : Client :=
  {| put_log_events := fun _ kwargs =>
       match sequenceToken kwargs with
       | None =>
           Raise (ClientError "InvalidSequenceTokenException"
                    "The given sequenceToken is invalid. The next expected sequenceToken is: 49")
       | Some _ =>
           Return {| nextSequenceToken := Some "50"%string;
                     rejectedLogEventsInfo := false |}
       end;
     create_log_stream := fun _ _ => Return tt |}.

(** A remote store that cannot be reached. *)
Definition unreachable_client : Client :=
  {| put_log_events := fun _ _ => Raise (TransportError "EndpointConnectionError");
     create_log_stream := fun _ _ => Return tt |}.

Definition record_for (s text : string) : LogRecord :=
  {| rec_name := s; rec_created := 1.5%Q; rec_msg := text |}.

Definition msg_of (text : string) : QueuedMessage :=
  {| timestamp := 1500; message := text |}.

(** One full inner iteration of the worker of [s] on a dequeued item. *)
Definition iteration (s : string) (now : Z) : list event :=
  [Work s Get; Work s (Check now); Work s TaskDone].

(** Scenario A of the specification: three short messages, then a flush
    before the interval is over. *)
Definition scenario_a_before : list event :=
  [Emit (record_for "A" "m1"); Emit (record_for "A" "m2"); Emit (record_for "A" "m3");
   Work "A" (Open 0)]
  ++ iteration "A" 1 ++ iteration "A" 2 ++ iteration "A" 3.

Definition scenario_a_during : list event :=
  iteration "A" 10 ++ [Work "A" (Open 10); FlushJoin].

Definition scenario_a : list event :=
  scenario_a_before ++ FlushCall :: scenario_a_during ++ [FlushReturn].


(** Under [cfg_small]: "m1" and "m2" cost 28 each, a third does not fit. *)
Definition scenario_b : list event :=
  [Emit (record_for "B" "m1"); Emit (record_for "B" "m2"); Emit (record_for "B" "m3");
   Work "B" (Open 0)]
  ++ iteration "B" 1 ++ iteration "B" 2 ++ iteration "B" 3
  ++ [Work "B" (Open 3); FlushCall] ++ iteration "B" 4
  ++ [Work "B" (Open 4); FlushJoin; FlushReturn].



(** One message is dequeued, then [queue.get] times out. *)
Definition scenario_timeout : list event :=
  [Emit (record_for "A" "m1"); Work "A" (Open 0)]
  ++ iteration "A" 1 ++ [Work "A" Timeout].

(** The same, continued as it can only continue when the timeout is
    swallowed ([empty_attr = true]): the stale [msg] is checked again
    while a second message arrives, then the handler is flushed. *)
Definition scenario_stale_msg_flushed : list event :=
  scenario_timeout
  ++ [Emit (record_for "A" "m2"); Work "A" (Check 61); Work "A" TaskDone;
      Work "A" (Open 61); Work "A" Get; FlushCall; Work "A" (Check 62);
      Work "A" TaskDone; FlushJoin; FlushReturn].

Definition scenario_stale_msg : list event :=
  scenario_stale_msg_flushed ++ [Work "A" Get; Work "A" (Check 63)].

(** The batches of the calls made so far, oldest first. *)
Definition batches_sent (st : State) : list (list QueuedMessage) :=
  (fun call => logEvents (request call)) <$> calls st.

(** The state a scenario ends in (the initial state if it cannot run). *)
Definition state_after (client : Client) (empty_attr : bool) (c : Config)
    (tr : list event) : State :=
  default (init c) (run client empty_attr (init c) tr).

Definition worker_of (s : string) (st : State) : Worker :=
  default (spawn (cfg st)) (threads st !! s).

Definition queue_of (s : string) (st : State) : Queue :=
  default new_queue (queues st !! s).

(** The states the scenarios end in. *)
Definition after_scenario_a : State :=
  state_after accepting_client cpython_empty_attr cfg_default scenario_a.



Definition after_scenario_b : State :=
  state_after accepting_client cpython_empty_attr cfg_small scenario_b.

(** Scenario C: stream "C" is registered and nothing was sent yet. *)
Definition scenario_c_state : State := registered (init cfg_sync) "C".

Definition scenario_c_error : exn :=
  ClientError "InvalidSequenceTokenException"
    "The given sequenceToken is invalid. The next expected sequenceToken is: 49".

Definition after_scenario_timeout : State :=
  state_after accepting_client cpython_empty_attr cfg_default scenario_timeout.

(** ** Further observations *)






(** No counter of unfinished tasks is negative. *)
Definition unfinished_inv (st : State) : Prop :=
  ∀ s q, queues st !! s = Some q -> 0 ≤ unfinished_tasks q.

(** A worker at line 138 got there on [END]. *)
Definition left_inv (st : State) : Prop :=
  ∀ s w, threads st !! s = Some w -> w_pc w = Left -> w_msg w = Some END.

(** While a [flush] waits for stream [s], whose worker [w] has stopped:
    the frame is frozen, the queue has unfinished tasks, and [s] is
    still to be joined. *)
Definition flush_stuck (s : string) (w : Worker) (st : State) : Prop :=
  threads st !! s = Some w ∧
  (∃ q, queues st !! s = Some q ∧ 1 ≤ unfinished_tasks q) ∧
  ∃ pending, joining st = Some pending ∧ s ∈ pending.

(** Scenario B up to the moment the third message is dequeued. *)
Definition scenario_b_third_dequeued : list event :=
  [Emit (record_for "B" "m1"); Emit (record_for "B" "m2"); Emit (record_for "B" "m3");
   Work "B" (Open 0)]
  ++ iteration "B" 1 ++ iteration "B" 2 ++ [Work "B" Get].

Definition after_scenario_b_third_dequeued : State :=
  state_after accepting_client cpython_empty_attr cfg_small scenario_b_third_dequeued.

(** A remote store that refuses to create log streams. *)
Definition denying_client : Client :=
  {| put_log_events := put_log_events accepting_client;
     create_log_stream := fun _ _ =>
       Raise (ClientError "AccessDeniedException" "not authorized") |}.

(** ** The submitter *)

Section Submitter.

Variable client : Client.

Lemma has_space_app (a b : string) :
  has_space (a ++ b) = has_space a || has_space b.
Proof.
  induction a as [|c a IH]; simpl; [reflexivity|].
  destruct (Ascii.eqb c " "); [reflexivity|exact IH].
Qed.

Lemma rsplit_last_no_space (s : string) :
  has_space s = false -> rsplit_last s = s.
Proof.
  destruct s as [|c s]; simpl; [reflexivity|].
  destruct (Ascii.eqb c " "); [discriminate|].
  intros ->. reflexivity.
Qed.

Lemma rsplit_last_after_space (pre tok : string) :
  has_space tok = false ->
  rsplit_last (pre ++ String " " tok) = tok.
Proof.
  intros Htok. induction pre as [|c pre IH]; simpl.
  - rewrite Htok. reflexivity.
  - rewrite has_space_app. simpl. rewrite orb_true_r. exact IH.
Qed.

Lemma stale_token_code_spec (code : string) :
  stale_token_code code = true <->
  code = "DataAlreadyAcceptedException"%string \/
  code = "InvalidSequenceTokenException"%string.
Proof.
  unfold stale_token_code. rewrite orb_true_iff, !String.eqb_eq. reflexivity.
Qed.


Local Ltac acc_none :=
  repeat constructor; unfold accepted; simpl;
  repeat match goal with H : _ = _ |- _ => rewrite H end; done.

(** Everything [_submit_batch] can do, in one statement: it touches only
    the call log and the token of its stream; the calls it makes are on
    its stream with its batch; it returns exactly when its last call was
    accepted, and then stores that call's token. *)
Lemma submit_batch_spec (st : State) (batch : list QueuedMessage) (s : string) :
  ∃ new : list Call,
    let out := _submit_batch client st batch s in
    cfg out.2 = cfg st ∧ queues out.2 = queues st ∧ threads out.2 = threads st ∧
    joining out.2 = joining st ∧
    calls out.2 = calls st ++ new ∧
    Forall (fun c => logStreamName (request c) = s ∧ logEvents (request c) = batch) new ∧
    match out.1 with
    | Return _ =>
        ∃ pre c t, new = pre ++ [c] ∧ Forall (fun c => accepted c = None) pre ∧
                   accepted c = Some t ∧
                   sequence_tokens out.2 = <[s := Some t]> (sequence_tokens st)
    | Raise _ =>
        Forall (fun c => accepted c = None) new ∧
        sequence_tokens out.2 = sequence_tokens st
    end.
Proof.
  unfold _submit_batch.
  destruct (sequence_tokens st !! s) as [token|].
  2: { exists []. simpl. rewrite app_nil_r. repeat split; constructor. }
  set (kw := {| logGroupName := _ |}).
  unfold call_put.
  destruct (put_log_events client (calls st) kw) as [resp|e] eqn:E1.
  - (* answered at once *)
    exists [{| request := kw; reply := Return resp |}]. simpl.
    destruct (rejectedLogEventsInfo resp) eqn:Erej;
      [|destruct (nextSequenceToken resp) as [t|] eqn:Etok]; simpl;
      repeat split; try (repeat constructor; done); try acc_none.
    exists [], {| request := kw; reply := Return resp |}, t.
    repeat split; [constructor|]. unfold accepted. simpl. by rewrite Erej.
  - destruct e as [code text| | | | | |];
      try (eexists [{| request := kw; reply := Raise _ |}]; simpl;
           repeat split; repeat constructor; done).
    destruct (stale_token_code code) eqn:Ecode.
    2: { exists [{| request := kw; reply := Raise (ClientError code text) |}]. simpl.
         repeat split; repeat constructor; done. }
    (* one retry *)
    set (first := {| request := kw; reply := Raise (ClientError code text) |}).
    set (kw' := with_token kw (rsplit_last text)).
    simpl calls.
    destruct (put_log_events client (calls st ++ [first]) kw') as [resp|e2] eqn:E2.
    + exists [first; {| request := kw'; reply := Return resp |}]. simpl.
      destruct (rejectedLogEventsInfo resp) eqn:Erej;
        [|destruct (nextSequenceToken resp) as [t|] eqn:Etok]; simpl;
        rewrite <- ?app_assoc; simpl;
        repeat split; try (repeat constructor; done); try acc_none.
      exists [first], {| request := kw'; reply := Return resp |}, t.
      repeat split; [repeat constructor|]. unfold accepted. simpl. by rewrite Erej.
    + exists [first; {| request := kw'; reply := Raise e2 |}]. simpl.
      rewrite <- ?app_assoc; simpl.
      repeat split; repeat constructor; done.
Qed.

(** C3.  When the first [put_log_events] of a submission raises a
    ClientError whose code is DataAlreadyAcceptedException or
    InvalidSequenceTokenException, the submitter makes exactly one more
    call, with the same group, stream and batch and with the token that
    follows the last space of the error text, and whatever that second
    call raises is raised by [_submit_batch]; any other exception of the
    first call is raised unchanged after that single call.  The token is
    the text after the last space (the whole text if it has no space). *)
Theorem submit_batch_retries_stale_token_once
    (st : State) (batch : list QueuedMessage) (s : string) (token : option string)
    (e : exn) :
  sequence_tokens st !! s = Some token ->
  put_log_events client (calls st) (first_request st batch s token) = Raise e ->
  let first := {| request := first_request st batch s token; reply := Raise e |} in
  let out := _submit_batch client st batch s in
  (∀ code text,
     e = ClientError code text ->
     code = "DataAlreadyAcceptedException"%string ∨
     code = "InvalidSequenceTokenException"%string ->
     let retry := {| logGroupName := log_group (cfg st); logStreamName := s;
                     logEvents := batch;
                     sequenceToken := Some (rsplit_last text) |} in
     let r2 := put_log_events client (calls st ++ [first]) retry in
     calls out.2 = calls st ++ [first; {| request := retry; reply := r2 |}] ∧
     (∀ e2, r2 = Raise e2 -> out.1 = Raise e2)) ∧
  ((∀ code text,
      e = ClientError code text ->
      code ≠ "DataAlreadyAcceptedException"%string ∧
      code ≠ "InvalidSequenceTokenException"%string) ->
   out.1 = Raise e ∧ calls out.2 = calls st ++ [first]) ∧
  (∀ pre tok, has_space tok = false -> rsplit_last (pre ++ String " " tok) = tok) ∧
  (∀ text, has_space text = false -> rsplit_last text = text).
Proof.
  intros Htok Hfirst first out.
  split; [|split; [|split]].
  - intros code text -> Hcode retry r2.
    apply stale_token_code_spec in Hcode.
    subst out. unfold _submit_batch. rewrite Htok.
    unfold call_put. fold (first_request st batch s token).
    rewrite Hfirst, Hcode. simpl calls. fold first.
    change (with_token (first_request st batch s token) (rsplit_last text)) with retry.
    fold r2. destruct r2 as [resp|e2'] eqn:E2.
    + split; [|discriminate].
      destruct (rejectedLogEventsInfo resp); [|destruct (nextSequenceToken resp)];
        simpl; by rewrite <- app_assoc.
    + split; [simpl; by rewrite <- app_assoc|]. intros e2 [= ->]. reflexivity.
  - intros Hother.
    subst out. unfold _submit_batch. rewrite Htok.
    unfold call_put. fold (first_request st batch s token). rewrite Hfirst.
    destruct e as [code text| | | | | |]; try (split; reflexivity).
    destruct (stale_token_code code) eqn:Ecode; [|split; reflexivity].
    apply stale_token_code_spec in Ecode.
    destruct (Hother code text eq_refl) as [H1 H2]. tauto.
  - apply rsplit_last_after_space.
  - apply rsplit_last_no_space.
Qed.

(** C9.  If [_submit_batch] raises, for whatever reason, the token store
    is exactly what it was; if it returns, its last call was answered
    with a response that is not marked rejected and carries a token, and
    the store differs only in holding that token for the stream. *)
Theorem submit_batch_failure_keeps_token
    (st : State) (batch : list QueuedMessage) (s : string) :
  let out := _submit_batch client st batch s in
  (∀ e, out.1 = Raise e -> sequence_tokens out.2 = sequence_tokens st) ∧
  (out.1 = Return tt ->
   ∃ req response t,
     last (calls out.2) = Some {| request := req; reply := Return response |} ∧
     rejectedLogEventsInfo response = false ∧
     nextSequenceToken response = Some t ∧
     sequence_tokens out.2 = <[s := Some t]> (sequence_tokens st)).
Proof.
  destruct (submit_batch_spec st batch s) as (new & _ & _ & _ & _ & Hcalls & _ & Hres).
  simpl. split.
  - intros e He. rewrite He in Hres. apply Hres.
  - intros Hret. rewrite Hret in Hres.
    destruct Hres as (pre & c & t & -> & _ & Hacc & Htok).
    destruct c as [req [response|e]]; unfold accepted in Hacc; simpl in Hacc;
      [|discriminate].
    exists req, response, t. rewrite Hcalls, app_assoc, last_snoc.
    destruct (rejectedLogEventsInfo response); [discriminate|]. done.
Qed.

End Submitter.

(** ** Runs *)

Section Runs.

Variable client : Client.
Variable empty_attr : bool.

Local Abbreviation step := (step client empty_attr).
Local Abbreviation run := (run client empty_attr).


(** A property kept by every step is kept by every run. *)
Lemma run_invariant (P : State -> Prop) :
  (∀ st st' e, P st -> step st e = Some st' -> P st') ->
  ∀ tr st st', P st -> run st tr = Some st' -> P st'.
Proof.
  intros Hstep tr. induction tr as [|e tr IH]; intros st st' HP Hrun; simpl in Hrun.
  - by simplify_eq.
  - destruct (step st e) as [st1|] eqn:E; simpl in Hrun; [|discriminate].
    eapply IH; [|exact Hrun]. eapply Hstep; eauto.
Qed.

(** *** Shape of the steps *)

(** [emit] is: register the stream if it is new (or fail doing so), then
    either enqueue or submit. *)

Lemma emit_cases (st : State) (record : LogRecord) :
  let s := rec_name record in
  let m := {| timestamp := to_millis (rec_created record); message := rec_msg record |} in
  (∃ e, sequence_tokens st !! s = None ∧
        _idempotent_create client (log_group (cfg st)) s = Raise e ∧
        emit client st record = (Raise e, st)) ∨
  (use_queues (cfg st) = false ∧
   emit client st record = _submit_batch client (registered st s) [m] s) ∨
  (use_queues (cfg st) = true ∧
   emit client st record =
     (Return tt,
      set_queues (alter (put (Msg m)) s)
        (match queues st !! s with
         | Some _ => registered st s
         | None => set_threads (<[s := spawn (cfg st)]>)
                     (set_queues (<[s := new_queue]>) (registered st s))
         end))).
Proof.
  intros s m. unfold emit, registered. fold s. fold m.
  destruct (sequence_tokens st !! s) as [t|] eqn:Et; simpl.
  - destruct (use_queues (cfg st)) eqn:Eu; [right; right|right; left];
      (split; [reflexivity|]); [|reflexivity].
    destruct (queues st !! s); reflexivity.
  - destruct (_idempotent_create client (log_group (cfg st)) s) as [[]|e] eqn:Ec; simpl.
    + destruct (use_queues (cfg st)) eqn:Eu; [right; right|right; left];
        (split; [reflexivity|]); [|reflexivity].
      destruct (queues st !! s); reflexivity.
    + left. exists e. auto.
Qed.


(** *** Token continuity *)


Lemma last_token_app_accepted (s : string) (l pre : list Call) (c : Call) (t : string) :
  on_stream s c = true -> accepted c = Some t ->
  last_token s (l ++ pre ++ [c]) = Some t.
Proof.
  intros Hs Ht. unfold last_token. rewrite app_assoc, omap_app. simpl.
  rewrite Hs, Ht. simpl. apply last_snoc.
Qed.

Lemma on_stream_true (s : string) (c : Call) :
  on_stream s c = true <-> logStreamName (request c) = s.
Proof. unfold on_stream. apply String.eqb_eq. Qed.

Lemma on_stream_false (s : string) (c : Call) :
  on_stream s c = false <-> logStreamName (request c) ≠ s.
Proof. unfold on_stream. apply String.eqb_neq. Qed.








(** *** Batch limits *)

Lemma batch_cost_snoc (b : list QueuedMessage) (m : QueuedMessage) :
  batch_cost (b ++ [m]) = batch_cost b + size m.
Proof.
  unfold batch_cost. induction b as [|x b IH]; simpl; [lia|]. rewrite IH. lia.
Qed.



Lemma worker_ok_open (c : Config) (w : Worker) (now : Z) :
  worker_ok c w -> worker_ok c (batch_sender_open now w).
Proof.
  intros (Hs & Hc & Hsz & Hn & Hok). unfold batch_sender_open.
  destruct (w_msg w) as [[m|]|]; unfold worker_ok, batch_ok; simpl;
    repeat split; auto.
Qed.

Lemma batches_inv_submit (c : Config) (st : State) (b : list QueuedMessage) (s : string) :
  batches_inv c st -> batch_ok c b ->
  batches_inv c (_submit_batch client st b s).2.
Proof.
  intros (Hcfg & Hw & Hcalls) Hb.
  destruct (submit_batch_spec client st b s) as (new & Hc & _ & Ht & _ & Hcs & Hnew & _).
  simpl in *. split; [congruence|]. split; [by rewrite Ht|].
  rewrite Hcs. apply Forall_app. split; [done|].
  eapply Forall_impl; [exact Hnew|]. intros call [_ ->]. done.
Qed.

(** [batches_inv] does not read the queues, the token store or
    [joining]. *)
Lemma batches_inv_frame (c : Config) (st st' : State) :
  cfg st' = cfg st -> threads st' = threads st -> calls st' = calls st ->
  batches_inv c st -> batches_inv c st'.
Proof. unfold batches_inv. intros -> -> ->. done. Qed.

Lemma batches_inv_put_worker (c : Config) (st : State) (s : string) (w : Worker) :
  batches_inv c st -> worker_ok c w -> batches_inv c (put_worker s w st).
Proof.
  intros (Hcfg & Hw & Hcalls) Hok. split; [done|]. split; [|done].
  intros s' w'. simpl. destruct (decide (s = s')) as [<-|Hne].
  - rewrite lookup_insert_eq. by intros [= <-].
  - rewrite lookup_insert_ne by done. apply Hw.
Qed.

Lemma worker_ok_same_batch (c : Config) (w w' : Worker) :
  w_max_batch_size w' = w_max_batch_size w ->
  w_max_batch_count w' = w_max_batch_count w ->
  cur_batch w' = cur_batch w -> cur_batch_size w' = cur_batch_size w ->
  cur_batch_msg_count w' = cur_batch_msg_count w ->
  worker_ok c w -> worker_ok c w'.
Proof. unfold worker_ok. intros -> -> -> -> ->. done. Qed.

Lemma batches_inv_close (c : Config) (st : State) (s : string) (w : Worker) :
  batches_inv c st -> worker_ok c w -> batches_inv c (close_batch client s w st).
Proof.
  intros Hinv Hok. unfold close_batch.
  pose proof (batches_inv_submit c st (cur_batch w) s Hinv) as Hsub.
  destruct (_submit_batch client st (cur_batch w) s) as [[[]|e] st1]; simpl in Hsub;
    (apply batches_inv_put_worker; [apply Hsub, Hok|]);
    by eapply worker_ok_same_batch.
Qed.

Lemma batches_inv_check (c : Config) (st : State) (s : string) (w : Worker) (now : Z) :
  batches_inv c st -> worker_ok c w ->
  batches_inv c (batch_sender_check client s now w st).
Proof.
  intros Hinv Hok. unfold batch_sender_check.
  destruct (w_msg w) as [[m|]|].
  - destruct (_ || _) eqn:Econd; [by apply batches_inv_close|].
    apply batches_inv_put_worker; [done|].
    apply orb_false_iff in Econd as [Econd _].
    apply orb_false_iff in Econd as [Esz Ecnt].
    destruct Hok as (Hs & Hc & Hsz & Hn & Hb).
    unfold worker_ok, batch_ok. simpl.
    rewrite batch_cost_snoc, length_app. simpl.
    repeat split; auto; [lia..|]. right. lia.
  - by apply batches_inv_close.
  - apply batches_inv_put_worker; [done|]. by eapply worker_ok_same_batch.
Qed.

Lemma worker_ok_spawn (c : Config) : worker_ok c (spawn c).
Proof. unfold worker_ok, spawn, batch_ok. simpl. repeat split; auto. Qed.

Lemma batches_inv_step (c : Config) (st st' : State) (e : event) :
  batches_inv c st -> step st e = Some st' -> batches_inv c st'.
Proof.
  intros Hinv Hstep. destruct e as [record| | | |s a]; simpl in Hstep.
  - simplify_eq.
    assert (Hreg : batches_inv c (registered st (rec_name record))).
    { unfold registered. destruct (sequence_tokens st !! rec_name record); [done|].
      by eapply batches_inv_frame. }
    destruct (emit_cases st record) as [(e & _ & _ & ->)|[[_ ->]|[_ ->]]]; simpl.
    + done.
    + apply batches_inv_submit; [done|]. left. simpl. lia.
    + destruct (queues st !! rec_name record).
      * by eapply batches_inv_frame.
      * eapply batches_inv_frame with
          (st := put_worker (rec_name record) (spawn (cfg st)) (registered st (rec_name record)));
          try done.
        apply batches_inv_put_worker; [exact Hreg|].
        destruct Hinv as [<- _]. apply worker_ok_spawn.
  - destruct (joining st); simplify_eq. by eapply batches_inv_frame.
  - unfold flush_join in Hstep. destruct (joining st) as [[|s rest]|]; simplify_eq.
    destruct (queues st !! s) as [q|]; simpl in Hstep; [|done].
    destruct (unfinished_tasks q =? 0); simplify_eq. by eapply batches_inv_frame.
  - destruct (joining st) as [[|]|]; simplify_eq. by eapply batches_inv_frame.
  - unfold batch_sender in Hstep.
    destruct (threads st !! s) as [w|] eqn:Ew; simpl in Hstep; [|done].
    destruct (queues st !! s) as [q|]; simpl in Hstep; [|done].
    assert (Hok : worker_ok c w) by (destruct Hinv as (_ & Hw & _); eauto).
    destruct (w_died w); [done|].
    destruct (w_pc w), a; simplify_eq.
    + apply batches_inv_put_worker; [done|]. by apply worker_ok_open.
    + destruct (items q); simplify_eq.
      apply batches_inv_put_worker; [by eapply batches_inv_frame|].
      by eapply worker_ok_same_batch.
    + destruct (items q); simplify_eq.
      apply batches_inv_put_worker; [done|].
      destruct empty_attr; by eapply worker_ok_same_batch.
    + by apply batches_inv_check.
    + destruct (task_done q); simplify_eq;
        (apply batches_inv_put_worker; [by eapply batches_inv_frame|]);
        by eapply worker_ok_same_batch.
    + destruct (task_done q); simplify_eq;
        (apply batches_inv_put_worker; [by eapply batches_inv_frame|]);
        by eapply worker_ok_same_batch.
Qed.

Lemma batches_inv_init (c : Config) : batches_inv c (init c).
Proof.
  split; [done|]. split; [|constructor]. intros s w. unfold init. simpl.
  by rewrite lookup_empty.
Qed.

Lemma reachable_batches_inv (c : Config) (tr : list event) (st : State) :
  run (init c) tr = Some st -> batches_inv c st.
Proof.
  intros Hrun.
  eapply run_invariant; [apply batches_inv_step|apply batches_inv_init|exact Hrun].
Qed.



(** C5.  With [max_batch_count] at least 1, every batch that reaches
    [put_log_events] holds at most [max_batch_count] messages. *)
Theorem submitted_batches_within_count (c : Config) (tr : list event) (st : State) :
  1 ≤ max_batch_count c ->
  run (init c) tr = Some st ->
  ∀ call, call ∈ calls st ->
    Z.of_nat (length (logEvents (request call))) ≤ max_batch_count c.
Proof.
  intros Hmax Hrun call Hin.
  destruct (reachable_batches_inv c tr st Hrun) as (_ & _ & Hcalls).
  rewrite Forall_forall in Hcalls.
  destruct (Hcalls call Hin) as [Hlen|[_ Hn]]; lia.
Qed.


(** *** After a worker has stopped *)

Lemma cfg_step (st st' : State) (e : event) :
  step st e = Some st' -> cfg st' = cfg st.
Proof.
  intros Hstep. destruct e as [record| | | |s a]; simpl in Hstep.
  - simplify_eq.
    destruct (emit_cases st record) as [(e & _ & _ & ->)|[[_ ->]|[_ ->]]]; simpl.
    + done.
    + destruct (submit_batch_spec client (registered st (rec_name record))
                  [{| timestamp := to_millis (rec_created record);
                      message := rec_msg record |}] (rec_name record))
        as (new & -> & _). unfold registered. by destruct (_ !! _).
    + unfold registered. by destruct (queues st !! _), (sequence_tokens st !! _).
  - by destruct (joining st); simplify_eq.
  - unfold flush_join in Hstep. destruct (joining st) as [[|s rest]|]; simplify_eq.
    destruct (queues st !! s) as [q|]; simpl in Hstep; [|done].
    by destruct (unfinished_tasks q =? 0); simplify_eq.
  - by destruct (joining st) as [[|]|]; simplify_eq.
  - unfold batch_sender in Hstep.
    destruct (threads st !! s) as [w|]; simpl in Hstep; [|done].
    destruct (queues st !! s) as [q|]; simpl in Hstep; [|done].
    destruct (w_died w); [done|].
    destruct (w_pc w), a; simplify_eq; try done.
    + by destruct (items q); simplify_eq.
    + by destruct (items q); simplify_eq.
    + unfold batch_sender_check, close_batch.
      destruct (submit_batch_spec client st (cur_batch w) s) as (new & Hc & _).
      destruct (_submit_batch client st (cur_batch w) s) as [[[]|ex] st1]; simpl in Hc.
      all: by destruct (w_msg w) as [[m|]|]; try destruct (_ || _).
    + by destruct (task_done q); simplify_eq.
    + by destruct (task_done q); simplify_eq.
Qed.

Lemma registered_is_Some (st : State) (s : string) :
  is_Some (sequence_tokens (registered st s) !! s).
Proof.
  unfold registered. destruct (sequence_tokens st !! s) eqn:E; simpl.
  - by rewrite E.
  - by rewrite lookup_insert_eq.
Qed.

Lemma registered_mono (st : State) (s s' : string) :
  is_Some (sequence_tokens st !! s') ->
  is_Some (sequence_tokens (registered st s) !! s').
Proof.
  unfold registered. destruct (sequence_tokens st !! s) eqn:E; simpl; [done|].
  intros H. destruct (decide (s = s')) as [<-|Hne].
  - by rewrite lookup_insert_eq.
  - by rewrite lookup_insert_ne.
Qed.

Lemma submit_batch_tokens_mono (st : State) (b : list QueuedMessage) (s s' : string) :
  is_Some (sequence_tokens st !! s') ->
  is_Some (sequence_tokens (_submit_batch client st b s).2 !! s').
Proof.
  intros H.
  destruct (submit_batch_spec client st b s) as (new & _ & _ & _ & _ & _ & _ & Hres).
  simpl in Hres. destruct (_submit_batch client st b s).1.
  - destruct Hres as (pre & call & t & _ & _ & _ & ->).
    destruct (decide (s = s')) as [<-|Hne].
    + by rewrite lookup_insert_eq.
    + by rewrite lookup_insert_ne.
  - destruct Hres as [_ ->]. done.
Qed.

Lemma queue_mode_inv_step (st st' : State) (e : event) :
  queue_mode_inv st -> step st e = Some st' -> queue_mode_inv st'.
Proof.
  intros Hinv Hstep s'. rewrite (cfg_step _ _ _ Hstep).
  destruct e as [record| | | |s a]; simpl in Hstep.
  - simplify_eq.
    destruct (emit_cases st record) as [(e & _ & _ & ->)|[[_ ->]|[Hq ->]]]; simpl.
    + apply Hinv.
    + destruct (submit_batch_spec client (registered st (rec_name record))
                  [{| timestamp := to_millis (rec_created record);
                      message := rec_msg record |}] (rec_name record))
        as (new & _ & Hqs & _). simpl in Hqs. rewrite Hqs.
      intros H.
      assert (is_Some (queues st !! s')) as Hs.
      { revert H. unfold registered.
        by destruct (sequence_tokens st !! rec_name record). }
      destruct (Hinv s' Hs) as [Hu Ht]. split; [done|].
      by apply submit_batch_tokens_mono, registered_mono.
    + intros H. split; [done|].
      destruct (decide (rec_name record = s')) as [<-|Hne].
      * pose proof (registered_is_Some st (rec_name record)) as Hr.
        by destruct (queues st !! rec_name record).
      * assert (is_Some (queues st !! s')) as Hs.
        { revert H. rewrite lookup_alter_ne by done. unfold registered.
          destruct (queues st !! rec_name record),
            (sequence_tokens st !! rec_name record); simpl;
            rewrite ?lookup_insert_ne by done; done. }
        destruct (Hinv s' Hs) as [_ Ht].
        pose proof (registered_mono st (rec_name record) s' Ht) as Hr.
        by destruct (queues st !! rec_name record).
  - destruct (joining st); simplify_eq. simpl. rewrite lookup_fmap.
    intros H. apply (Hinv s'). by apply fmap_is_Some in H.
  - unfold flush_join in Hstep. destruct (joining st) as [[|s rest]|]; simplify_eq.
    destruct (queues st !! s) as [q|]; simpl in Hstep; [|done].
    destruct (unfinished_tasks q =? 0); simplify_eq. apply Hinv.
  - destruct (joining st) as [[|]|]; simplify_eq. apply Hinv.
  - unfold batch_sender in Hstep.
    destruct (threads st !! s) as [w|]; simpl in Hstep; [|done].
    destruct (queues st !! s) as [q|] eqn:Eq; simpl in Hstep; [|done].
    assert (Hdom : ∀ q1 st1, queues st1 = queues st ->
              is_Some (queues (put_queue s q1 st1) !! s') -> is_Some (queues st !! s')).
    { intros q1 st1 Hq1. simpl. rewrite Hq1.
      destruct (decide (s = s')) as [<-|Hne].
      - by rewrite Eq.
      - by rewrite lookup_insert_ne. }
    destruct (w_died w); [done|].
    destruct (w_pc w), a; simplify_eq; simpl; try apply Hinv.
    + destruct (items q); simplify_eq. simpl.
      intros H. apply (Hinv s'). eapply (Hdom _ st); [done|exact H].
    + destruct (items q); simplify_eq. simpl. apply Hinv.
    + unfold batch_sender_check, close_batch.
      destruct (submit_batch_spec client st (cur_batch w) s)
        as (new & _ & Hqs & _).
      pose proof (submit_batch_tokens_mono st (cur_batch w) s s') as Hmono.
      destruct (_submit_batch client st (cur_batch w) s) as [[[]|ex] st1];
        simpl in Hqs, Hmono.
      all: destruct (w_msg w) as [[m|]|]; try destruct (_ || _); simpl;
        rewrite ?Hqs; intros H; destruct (Hinv s' H); auto.
    + destruct (task_done q); simplify_eq; simpl; [|apply Hinv].
      intros H. apply (Hinv s'). eapply (Hdom _ st); [done|exact H].
    + destruct (task_done q); simplify_eq; simpl; [|apply Hinv].
      intros H. apply (Hinv s'). eapply (Hdom _ st); [done|exact H].
Qed.

Lemma reachable_queue_mode (c : Config) (tr : list event) (st : State) :
  run (init c) tr = Some st -> queue_mode_inv st.
Proof.
  intros Hrun.
  eapply run_invariant; [apply queue_mode_inv_step| |exact Hrun].
  intros s. unfold init. simpl. rewrite lookup_empty. by intros [? ?].
Qed.

Lemma filter_app_quiet (s : string) (l new : list Call) :
  Forall (fun call => logStreamName (request call) ≠ s) new ->
  filter (fun call => on_stream s call = true) (l ++ new)
  = filter (fun call => on_stream s call = true) l.
Proof.
  intros H. rewrite filter_app.
  replace (filter _ new) with (@nil Call); [by rewrite app_nil_r|].
  induction H as [|call new Hc _ IH]; [done|].
  rewrite filter_cons_False; [done|].
  apply on_stream_false in Hc. by rewrite Hc.
Qed.

Lemma stranded_step (s : string) (w : Worker) (q : Queue) (l : list Call)
    (st st' : State) (e : event) :
  stopped w -> stranded s w q l st -> step st e = Some st' -> stranded s w q l st'.
Proof.
  intros Hstop (Hth & Hmode & Hcalls & q' & more & Hq & Hitems) Hstep.
  unfold stranded. rewrite (cfg_step _ _ _ Hstep).
  destruct e as [record| | | |s' a]; simpl in Hstep.
  - simplify_eq.
    destruct (emit_cases st record) as [(e & _ & _ & ->)|[[Hu _]|[_ ->]]].
    + simpl. eauto 10.
    + congruence.
    + simpl. destruct (decide (rec_name record = s)) as [->|Hne].
      * rewrite Hq. unfold registered.
        destruct (sequence_tokens st !! s); simpl;
          (repeat split; [done..|]);
          exists (put (Msg {| timestamp := to_millis (rec_created record);
                              message := rec_msg record |}) q'), (more ++ [Msg {| timestamp := to_millis (rec_created record);
                              message := rec_msg record |}]);
          rewrite lookup_alter_eq, Hq; simpl; by rewrite Hitems, app_assoc.
      * unfold registered.
        destruct (queues st !! rec_name record), (sequence_tokens st !! rec_name record);
          simpl; rewrite ?lookup_insert_ne by done;
          (repeat split; [done..|]); exists q', more;
          rewrite lookup_alter_ne by done; rewrite ?lookup_insert_ne by done; done.
  - destruct (joining st); simplify_eq. simpl. repeat split; [done..|].
    exists (put END q'), (more ++ [END]). rewrite lookup_fmap, Hq. simpl.
    by rewrite Hitems, app_assoc.
  - unfold flush_join in Hstep. destruct (joining st) as [[|s1 rest]|]; simplify_eq.
    destruct (queues st !! s1) as [q1|]; simpl in Hstep; [|done].
    destruct (unfinished_tasks q1 =? 0); simplify_eq. simpl. eauto 10.
  - destruct (joining st) as [[|]|]; simplify_eq. simpl. eauto 10.
  - unfold batch_sender in Hstep.
    destruct (threads st !! s') as [w'|] eqn:Ew; simpl in Hstep; [|done].
    destruct (queues st !! s') as [q1|] eqn:Eq1; simpl in Hstep; [|done].
    destruct (decide (s' = s)) as [->|Hne].
    { (* the stopped worker itself cannot move *)
      simplify_eq. destruct Hstop as [Hpc|[ex Hd]].
      - rewrite Hpc in Hstep. by destruct (w_died w).
      - by rewrite Hd in Hstep. }
    destruct (w_died w'); [done|].
    destruct (w_pc w'), a; simplify_eq; simpl;
      try (rewrite !lookup_insert_ne by done; by eauto 10).
    + destruct (items q1); simplify_eq. simpl.
      rewrite !lookup_insert_ne by done. eauto 10.
    + destruct (items q1); simplify_eq. simpl.
      rewrite !lookup_insert_ne by done. eauto 10.
    + assert (Hclose : ∀ st1, st1 = close_batch client s' w' st ->
        threads st1 !! s = Some w ∧
        filter (fun call => on_stream s call = true) (calls st1)
          = filter (fun call => on_stream s call = true) l ∧
        ∃ q'0 more0, queues st1 !! s = Some q'0 ∧ items q'0 = items q ++ more0).
      { intros st1 ->. unfold close_batch.
        destruct (submit_batch_spec client st (cur_batch w') s')
          as (new & _ & Hqs & Hts & _ & Hcs & Hnew & _).
        destruct (_submit_batch client st (cur_batch w') s') as [[[]|ex] st1];
          simpl in *; rewrite lookup_insert_ne by done; rewrite Hts, Hqs, Hcs;
          (split; [done|]); (split; [|by eauto]);
          (rewrite filter_app_quiet; [done|]);
          (eapply Forall_impl; [exact Hnew|]); intros call [-> _]; done. }
      unfold batch_sender_check.
      destruct (w_msg w') as [[m|]|]; try destruct (_ || _);
        try (destruct (Hclose _ eq_refl) as (? & ? & ?); by repeat split);
        simpl; rewrite !lookup_insert_ne by done; eauto 10.
    + destruct (task_done q1); simplify_eq; simpl;
        rewrite !lookup_insert_ne by done; eauto 10.
    + destruct (task_done q1); simplify_eq; simpl;
        rewrite !lookup_insert_ne by done; eauto 10.
Qed.

Lemma stranded_run (s : string) (w : Worker) (q : Queue) (tr : list event)
    (st st' : State) :
  stopped w -> threads st !! s = Some w -> queues st !! s = Some q ->
  use_queues (cfg st) = true ->
  run st tr = Some st' -> stranded s w q (calls st) st'.
Proof.
  intros Hstop Hth Hq Hmode Hrun.
  eapply run_invariant; [intros ???; by apply stranded_step| |exact Hrun].
  repeat split; [done..|]. exists q, []. by rewrite app_nil_r.
Qed.


Lemma queues_kept_step (st st' : State) (e : event) (s : string) :
  is_Some (queues st !! s) -> step st e = Some st' -> is_Some (queues st' !! s).
Proof.
  intros Hq Hstep. destruct e as [record| | | |s' a]; simpl in Hstep.
  - simplify_eq.
    destruct (emit_cases st record) as [(e & _ & _ & ->)|[[_ ->]|[_ ->]]]; simpl.
    + done.
    + destruct (submit_batch_spec client (registered st (rec_name record))
                  [{| timestamp := to_millis (rec_created record);
                      message := rec_msg record |}] (rec_name record))
        as (new & _ & Hqs & _). simpl in Hqs. rewrite Hqs.
      unfold registered. by destruct (sequence_tokens st !! rec_name record).
    + apply lookup_alter_is_Some. unfold registered.
      destruct (queues st !! rec_name record) eqn:E,
        (sequence_tokens st !! rec_name record); simpl; try done;
        (destruct (decide (rec_name record = s)) as [<-|Hne];
         [by rewrite lookup_insert_eq|by rewrite lookup_insert_ne]).
  - destruct (joining st); simplify_eq. simpl. rewrite lookup_fmap.
    by apply fmap_is_Some.
  - unfold flush_join in Hstep. destruct (joining st) as [[|s1 rest]|]; simplify_eq.
    destruct (queues st !! s1) as [q|]; simpl in Hstep; [|done].
    by destruct (unfinished_tasks q =? 0); simplify_eq.
  - by destruct (joining st) as [[|]|]; simplify_eq.
  - unfold batch_sender in Hstep.
    destruct (threads st !! s') as [w|]; simpl in Hstep; [|done].
    destruct (queues st !! s') as [q|] eqn:Eq; simpl in Hstep; [|done].
    assert (Hins : ∀ q1, is_Some (<[s' := q1]> (queues st) !! s)).
    { intros q1. destruct (decide (s' = s)) as [<-|Hne].
      - by rewrite lookup_insert_eq.
      - by rewrite lookup_insert_ne. }
    destruct (w_died w); [done|].
    destruct (w_pc w), a; simplify_eq; simpl; try done.
    + destruct (items q); simplify_eq. simpl. apply Hins.
    + by destruct (items q); simplify_eq.
    + unfold batch_sender_check, close_batch.
      destruct (submit_batch_spec client st (cur_batch w) s')
        as (new & _ & Hqs & _).
      destruct (_submit_batch client st (cur_batch w) s') as [[[]|ex] st1];
        simpl in Hqs.
      all: destruct (w_msg w) as [[m|]|]; try destruct (_ || _); simpl;
        rewrite ?Hqs; done.
    + destruct (task_done q); simplify_eq; simpl; [apply Hins|done].
    + destruct (task_done q); simplify_eq; simpl; [apply Hins|done].
Qed.

(** C10.  Where a stream already has a queue, [emit] starts no thread,
    and no step removes the queue.  So once the stream's worker has left
    its loop, whatever happens next, the thread recorded for the stream
    is still that finished one, the queue holds everything it held plus
    everything put since (nothing is taken off it), and no further call
    on the stream reaches the remote store; an [emit] to the stream
    returns normally having only appended its message to that queue. *)
Theorem emit_after_worker_left_is_stranded
    (c : Config) (tr0 : list event) (st : State) (s : string) (w : Worker) (q : Queue) :
  run (init c) tr0 = Some st ->
  threads st !! s = Some w ->
  queues st !! s = Some q ->
  (∀ record, rec_name record = s -> threads (emit client st record).2 = threads st) ∧
  (∀ e st1, step st e = Some st1 -> is_Some (queues st1 !! s)) ∧
  (w_pc w = Left ->
   (∀ tr st',
      run st tr = Some st' ->
      threads st' !! s = Some w ∧
      (∃ q' more, queues st' !! s = Some q' ∧ items q' = items q ++ more) ∧
      filter (fun call => on_stream s call = true) (calls st')
        = filter (fun call => on_stream s call = true) (calls st)) ∧
   (∀ record,
      rec_name record = s ->
      let m := {| timestamp := to_millis (rec_created record);
                  message := rec_msg record |} in
      emit client st record
        = (Return tt, set_queues (<[s := put (Msg m) q]>) st))).
Proof.
  intros Hrun Hth Hq.
  destruct (reachable_queue_mode c tr0 st Hrun s) as [Hmode [t Htok]];
    [by rewrite Hq|].
  assert (Hemit : ∀ record, rec_name record = s ->
      emit client st record
        = (Return tt,
           set_queues (<[s := put (Msg {| timestamp := to_millis (rec_created record);
                                          message := rec_msg record |}) q]>) st)).
  { intros record <-.
    destruct (emit_cases st record) as [(e & Hnone & _)|[[Hu _]|[_ ->]]];
      [congruence|congruence|].
    rewrite Hq. unfold registered. rewrite Htok. f_equal.
    unfold set_queues. f_equal. apply map_eq. intros s'.
    destruct (decide (rec_name record = s')) as [<-|Hne].
    - by rewrite lookup_alter_eq, lookup_insert_eq, Hq.
    - by rewrite lookup_alter_ne, lookup_insert_ne. }
  split; [|split; [|intros Hleft; split]].
  - intros record Hname. by rewrite (Hemit record Hname).
  - intros e st1 Hstep. eapply queues_kept_step; [|exact Hstep]. by rewrite Hq.
  - intros tr st' Hrun'.
    destruct (stranded_run s w q tr st st') as (H1 & _ & H2 & H3); try done.
    by left.
  - exact Hemit.
Qed.


(** *** Empty batches *)













(** C8, as amended.  In queue mode [emit] makes no [put_log_events]
    call, and the only exception it can raise is the one raised while
    creating the log stream of a stream it sees for the first time.
    With [use_queues = False], once the stream is registered, [emit] is
    the synchronous submission of the one-message batch: it returns what
    [_submit_batch] returns and raises what [_submit_batch] raises. *)
Theorem emit_raises_delivery_errors_when_synchronous
    (st : State) (record : LogRecord) :
  let s := rec_name record in
  let m := {| timestamp := to_millis (rec_created record);
              message := rec_msg record |} in
  (use_queues (cfg st) = true ->
   calls (emit client st record).2 = calls st ∧
   ∀ e, (emit client st record).1 = Raise e ->
        sequence_tokens st !! s = None ∧
        _idempotent_create client (log_group (cfg st)) s = Raise e) ∧
  (use_queues (cfg st) = false ->
   is_Some (sequence_tokens st !! s) ∨
   _idempotent_create client (log_group (cfg st)) s = Return tt ->
   emit client st record = _submit_batch client (registered st s) [m] s).
Proof.
  intros s m. split.
  - intros Hu.
    destruct (emit_cases st record) as [(e & Hnone & Hcreate & ->)|[[Hu' _]|[_ ->]]];
      simpl.
    + split; [done|]. by intros e' [= <-].
    + congruence.
    + split; [|done]. unfold registered.
      by destruct (queues st !! rec_name record),
        (sequence_tokens st !! rec_name record).
  - intros Hu Hreg.
    destruct (emit_cases st record) as [(e & Hnone & Hcreate & _)|[[_ ->]|[Hu' _]]].
    + fold s in Hnone, Hcreate. destruct Hreg as [[t Ht]|Hok]; congruence.
    + done.
    + congruence.
Qed.

End Runs.

(** ** Draining the queues *)

(** This section is about the handler as CPython runs it: a timeout of
    [queue.get] ends the worker thread ([empty_attr = false]). *)
Section Drain.

Variable client : Client.

Local Abbreviation step := (step client cpython_empty_attr).
Local Abbreviation run := (run client cpython_empty_attr).

Lemma delivered_app (s : string) (l new : list Call) :
  delivered s (l ++ new) = delivered s l ++ delivered s new.
Proof. unfold delivered, delivered_batches. by rewrite omap_app, concat_app. Qed.

Lemma delivered_quiet (s : string) (new : list Call) :
  Forall (fun c => on_stream s c = false ∨ accepted c = None) new ->
  delivered s new = [].
Proof.
  unfold delivered, delivered_batches.
  induction 1 as [|c new [Hc|Hc] _ IH]; simpl; [done| |]; rewrite Hc.
  - exact IH.
  - destruct (on_stream s c); exact IH.
Qed.

(** What a submission adds to the delivered messages of each stream. *)
Lemma delivered_submit (st : State) (b : list QueuedMessage) (s s' : string) :
  let out := _submit_batch client st b s in
  delivered s' (calls out.2) =
    delivered s' (calls st) ++
    match out.1 with
    | Return _ => if decide (s = s') then b else []
    | Raise _ => []
    end.
Proof.
  destruct (submit_batch_spec client st b s) as (new & _ & _ & _ & _ & Hcalls & Hnew & Hres).
  simpl in *. rewrite Hcalls, delivered_app. f_equal.
  destruct (_submit_batch client st b s).1.
  - destruct Hres as (pre & c & t & -> & Hpre & Hacc & _).
    rewrite delivered_app.
    rewrite (delivered_quiet s' pre) by (eapply Forall_impl; [exact Hpre|]; by right).
    apply Forall_app in Hnew as [_ Hc]. apply Forall_singleton in Hc as [Hs Hb].
    unfold delivered, delivered_batches. simpl.
    destruct (decide (s = s')) as [<-|Hne].
    + rewrite (proj2 (on_stream_true s c) Hs), Hacc, Hb. simpl. by rewrite app_nil_r.
    + rewrite (proj2 (on_stream_false s' c)) by congruence. done.
  - destruct Hres as [Hquiet _]. apply delivered_quiet.
    eapply Forall_impl; [exact Hquiet|]. by right.
Qed.


(** [drain_inv_at] reads, of the whole state, the queue and the thread
    of the stream and the messages delivered on it. *)
Lemma drain_inv_at_frame (st st' : State) (s : string) :
  queues st' !! s = queues st !! s ->
  threads st' !! s = threads st !! s ->
  delivered s (calls st') = delivered s (calls st) ->
  drain_inv_at st s -> drain_inv_at st' s.
Proof. unfold drain_inv_at. intros -> -> ->. done. Qed.

Lemma drain_inv_at_intro (st : State) (s : string) (q : Queue) (w : Worker) :
  queues st !! s = Some q -> threads st !! s = Some w ->
  drain_ok q w (delivered s (calls st)) -> drain_inv_at st s.
Proof. unfold drain_inv_at. intros -> Hw Hok. eauto. Qed.

Lemma drain_ok_put (q : Queue) (w : Worker) (d : list QueuedMessage) (x : item) :
  drain_ok q w d -> drain_ok (put x q) w d.
Proof.
  intros [Hh Hu]. split; simpl.
  - rewrite Hh. by rewrite <- !app_assoc.
  - rewrite Hu, length_app. simpl. lia.
Qed.

Lemma drain_ok_open (q : Queue) (w : Worker) (d : list QueuedMessage) (now : Z) :
  w_pc w = AtLoopHead -> drain_ok q w d -> drain_ok q (batch_sender_open now w) d.
Proof.
  unfold drain_ok, in_hand, held, batch_sender_open. intros ->.
  destruct (w_msg w) as [[m|]|] eqn:Em; simpl; rewrite ?Em; done.
Qed.

Lemma drain_ok_get (q : Queue) (w : Worker) (d : list QueuedMessage) (x : item)
    (rest : list item) :
  w_pc w = AtGet -> items q = x :: rest -> drain_ok q w d ->
  drain_ok {| items := rest; unfinished_tasks := unfinished_tasks q;
              put_history := put_history q |}
           (set_pc AtCheck (set_msg (Some x) w)) d.
Proof.
  unfold drain_ok, in_hand, held. intros -> ->. simpl. intros [Hh Hu].
  split; [by rewrite Hh, <- !app_assoc|lia].
Qed.

Lemma drain_ok_die (q : Queue) (w : Worker) (d : list QueuedMessage) (e : exn) :
  drain_ok q w d -> drain_ok q (die e w) d.
Proof. done. Qed.

Lemma drain_ok_closed (q : Queue) (w : Worker) (d : list QueuedMessage) :
  w_pc w = AtCheck -> drain_ok q w d ->
  drain_ok q (set_pc AtTaskDoneBreak w) (d ++ cur_batch w).
Proof.
  unfold drain_ok, in_hand, held. intros ->. simpl. intros [Hh Hu].
  split; [|done]. by rewrite Hh, fmap_app, <- !app_assoc.
Qed.

Lemma drain_ok_append (q : Queue) (w : Worker) (d : list QueuedMessage)
    (m : QueuedMessage) (sz n : Z) :
  w_pc w = AtCheck -> w_msg w = Some (Msg m) -> drain_ok q w d ->
  drain_ok q (set_pc AtTaskDoneCont (set_batch (cur_batch w ++ [m]) sz n w)) d.
Proof.
  unfold drain_ok, in_hand, held. intros -> ->. simpl. intros [Hh Hu].
  split; [|done]. by rewrite Hh, fmap_app.
Qed.

Lemma drain_ok_task_done_break (q : Queue) (w : Worker) (d : list QueuedMessage) :
  w_pc w = AtTaskDoneBreak -> drain_ok q w d ->
  ∃ q', task_done q = Return q' ∧ drain_ok q' (set_pc AtLoopHead w) d.
Proof.
  unfold drain_ok, in_hand, held, task_done. intros -> [Hh Hu].
  assert ((unfinished_tasks q - 1 <? 0) = false) as -> by (apply Z.ltb_ge; lia).
  eexists. split; [reflexivity|]. simpl. split; [done|lia].
Qed.

Lemma drain_ok_task_done_cont (q : Queue) (w : Worker) (d : list QueuedMessage) :
  w_pc w = AtTaskDoneCont -> drain_ok q w d ->
  ∃ q', task_done q = Return q' ∧ drain_ok q' (set_pc AtGet w) d.
Proof.
  unfold drain_ok, in_hand, held, task_done. intros -> [Hh Hu].
  assert ((unfinished_tasks q - 1 <? 0) = false) as -> by (apply Z.ltb_ge; lia).
  eexists. split; [reflexivity|]. simpl. split; [done|lia].
Qed.


Lemma drain_inv_step (st st' : State) (e : event) :
  drain_inv st -> step st e = Some st' -> drain_inv st'.
Proof.
  intros Hinv Hstep Hmode s'. rewrite (cfg_step _ _ _ _ _ Hstep) in Hmode.
  specialize (Hinv Hmode).
  destruct e as [record| | | |s a]; simpl in Hstep.
  - (* emit *)
    simplify_eq.
    destruct (emit_cases client st record) as [(e & _ & _ & ->)|[[Hu _]|[_ ->]]];
      [apply Hinv|congruence|].
    set (s := rec_name record).
    set (x := Msg _).
    assert (Hreg : queues (registered st s) = queues st ∧
                   threads (registered st s) = threads st ∧
                   calls (registered st s) = calls st).
    { unfold registered. by destruct (sequence_tokens st !! s). }
    destruct Hreg as (Hrq & Hrt & Hrc).
    destruct (decide (s = s')) as [<-|Hne].
    + pose proof (Hinv s) as Hs. unfold drain_inv_at in Hs.
      destruct (queues st !! s) as [q|] eqn:Eq.
      * destruct Hs as (w & Hw & Hok).
        apply (drain_inv_at_intro _ s (put x q) w); simpl.
        -- by rewrite lookup_alter_eq, Hrq, Eq.
        -- by rewrite Hrt.
        -- rewrite Hrc. by apply drain_ok_put.
      * destruct Hs as [Hw Hd].
        apply (drain_inv_at_intro _ s (put x new_queue) (spawn (cfg st)));
          simpl.
        -- by rewrite lookup_alter_eq, lookup_insert_eq.
        -- by rewrite lookup_insert_eq.
        -- rewrite Hrc, Hd. done.
    + eapply drain_inv_at_frame; [| | |apply (Hinv s')];
        destruct (queues st !! s); simpl;
        rewrite ?lookup_alter_ne by done; rewrite ?lookup_insert_ne by done;
        congruence.
  - (* flush: END on every queue *)
    destruct (joining st); simplify_eq.
    pose proof (Hinv s') as Hs. unfold drain_inv_at in *. simpl.
    rewrite lookup_fmap.
    destruct (queues st !! s') as [q|]; simpl; [|done].
    destruct Hs as (w & Hw & Hok). exists w. split; [done|]. by apply drain_ok_put.
  - unfold flush_join in Hstep. destruct (joining st) as [[|s rest]|]; simplify_eq.
    destruct (queues st !! s) as [q|]; simpl in Hstep; [|done].
    destruct (unfinished_tasks q =? 0); simplify_eq. apply Hinv.
  - destruct (joining st) as [[|]|]; simplify_eq. apply Hinv.
  - (* a worker *)
    unfold batch_sender in Hstep.
    destruct (threads st !! s) as [w|] eqn:Ew; simpl in Hstep; [|done].
    destruct (queues st !! s) as [q|] eqn:Eq; simpl in Hstep; [|done].
    destruct (decide (s = s')) as [<-|Hne].
    + (* its own stream *)
      pose proof (Hinv s) as Hs. unfold drain_inv_at in Hs. rewrite Eq, Ew in Hs.
      destruct Hs as (w0 & [= <-] & Hok).
      destruct (w_died w); [done|].
      destruct (w_pc w) eqn:Epc, a; simplify_eq.
      * eapply drain_inv_at_intro; simpl;
          [exact Eq|by rewrite lookup_insert_eq|by apply drain_ok_open].
      * destruct (items q) as [|x rest] eqn:Ei; simplify_eq.
        eapply drain_inv_at_intro; simpl;
          [by rewrite lookup_insert_eq|by rewrite lookup_insert_eq|].
        by apply drain_ok_get.
      * destruct (items q) as [|x rest] eqn:Ei; simplify_eq.
        eapply drain_inv_at_intro; simpl;
          [exact Eq|by rewrite lookup_insert_eq|].
        unfold cpython_empty_attr. by apply drain_ok_die.
      * (* the check *)
        assert (Hclose : drain_inv_at (close_batch client s w st) s).
        { unfold close_batch.
          pose proof (delivered_submit st (cur_batch w) s s) as Hd.
          destruct (submit_batch_spec client st (cur_batch w) s)
            as (new & _ & Hqs & _).
          destruct (_submit_batch client st (cur_batch w) s) as [[[]|ex] st1];
            simpl in Hd, Hqs; rewrite ?decide_True in Hd by done;
            eapply drain_inv_at_intro; simpl;
            try (by rewrite Hqs); try (by rewrite lookup_insert_eq);
            rewrite Hd.
          - by apply drain_ok_closed.
          - rewrite app_nil_r. by apply drain_ok_die. }
        unfold batch_sender_check.
        destruct (w_msg w) as [[m|]|] eqn:Em; try destruct (_ || _); try exact Hclose.
        -- eapply drain_inv_at_intro; simpl;
             [exact Eq|by rewrite lookup_insert_eq|by apply drain_ok_append].
        -- eapply drain_inv_at_intro; simpl;
             [exact Eq|by rewrite lookup_insert_eq|by apply drain_ok_die].
      * destruct (drain_ok_task_done_break q w _ Epc Hok) as (q' & Htd & Hok').
        rewrite Htd in Hstep. simplify_eq.
        eapply drain_inv_at_intro; simpl;
          [by rewrite lookup_insert_eq|by rewrite lookup_insert_eq|done].
      * destruct (drain_ok_task_done_cont q w _ Epc Hok) as (q' & Htd & Hok').
        rewrite Htd in Hstep. simplify_eq.
        eapply drain_inv_at_intro; simpl;
          [by rewrite lookup_insert_eq|by rewrite lookup_insert_eq|done].
    + (* another stream *)
      eapply drain_inv_at_frame; [| | |apply (Hinv s')];
        destruct (w_died w); try done;
        destruct (w_pc w), a; simplify_eq; simpl;
        try (destruct (items q); simplify_eq; simpl);
        try (destruct (task_done q); simplify_eq; simpl);
        rewrite ?lookup_insert_ne by done; try done.
      all: unfold batch_sender_check, close_batch;
        pose proof (delivered_submit st (cur_batch w) s s') as Hd;
        destruct (submit_batch_spec client st (cur_batch w) s)
          as (new & _ & Hqs & Hts & _);
        destruct (_submit_batch client st (cur_batch w) s) as [[[]|ex] st1];
        simpl in Hd, Hqs, Hts; rewrite ?decide_False in Hd by done;
        rewrite ?app_nil_r in Hd;
        destruct (w_msg w) as [[m|]|]; try destruct (_ || _); simpl;
        rewrite ?lookup_insert_ne by done; congruence.
Qed.


Lemma drain_inv_init (c : Config) : drain_inv (init c).
Proof.
  intros _ s. unfold drain_inv_at, init. simpl. by rewrite !lookup_empty.
Qed.









Lemma reachable_drain_inv (c : Config) (tr : list event) (st : State) :
  run (init c) tr = Some st -> drain_inv st.
Proof.
  intros Hrun.
  apply (run_invariant client cpython_empty_attr drain_inv)
    with (tr := tr) (st := init c); [|apply drain_inv_init|done].
  intros ? ? ?. apply drain_inv_step.
Qed.

(** What the remote store accepted on a stream is, in order, a prefix of
    what was put on the stream's queue: while the worker lives nothing is
    repeated or reordered. *)
Lemma delivered_prefix_of_put_history
    (c : Config) (tr : list event) (st : State) (s : string) (q : Queue) :
  run (init c) tr = Some st -> queues st !! s = Some q ->
  (Msg <$> delivered s (calls st)) `prefix_of` put_history q.
Proof.
  intros Hrun Hq.
  destruct (reachable_queue_mode client cpython_empty_attr c tr st Hrun s) as [Hu _];
    [by rewrite Hq|].
  pose proof (reachable_drain_inv c tr st Hrun Hu s) as Hs.
  unfold drain_inv_at in Hs. rewrite Hq in Hs.
  destruct Hs as (w & _ & Hh & _). rewrite Hh. by apply prefix_app_r.
Qed.


End Drain.

(** ** Scenarios *)

(** Scenario A: one batch of three messages, and [flush] returns. *)
Example scenario_a_one_batch :
  batches_sent <$> run accepting_client cpython_empty_attr (init cfg_default) scenario_a
  = Some [[msg_of "m1"; msg_of "m2"; msg_of "m3"]].
Proof. vm_compute. reflexivity. Qed.

(** Scenario B, scaled down: the third message does not fit and opens
    the second batch, which is sent with the token of the first. *)
Example scenario_b_two_batches :
  (fun st => (fun call => (logEvents (request call), sequenceToken (request call)))
               <$> calls st)
    <$> run accepting_client cpython_empty_attr (init cfg_small) scenario_b
  = Some [([msg_of "m1"; msg_of "m2"], None); ([msg_of "m3"], Some "t1"%string)].
Proof. vm_compute. reflexivity. Qed.

(** C1, failing input.  A message is dequeued and then [queue.get]
    times out.  As CPython runs the module the worker dies of
    AttributeError with the message in [cur_batch] and nothing was sent;
    if the timeout is swallowed instead, the stale [msg] is submitted and
    then opens the next batch again: "m1" is sent twice. *)
Theorem timeout_loses_or_repeats_messages :
  (fun st => (batches_sent st, w_died (worker_of "A" st), cur_batch (worker_of "A" st)))
    <$> run accepting_client cpython_empty_attr (init cfg_default) scenario_timeout
  = Some ([], Some AttributeError, [msg_of "m1"]) ∧
  batches_sent <$> run accepting_client true (init cfg_default) scenario_stale_msg
  = Some [[msg_of "m1"]; [msg_of "m1"; msg_of "m2"]].
Proof. split; vm_compute; reflexivity. Qed.

(** After that death nothing more is sent on the stream, whatever
    happens. *)
Lemma timeout_loss_is_final (client : Client) (tr : list event) (st : State) :
  run client cpython_empty_attr after_scenario_timeout tr = Some st ->
  filter (fun call => on_stream "A" call = true) (calls st) = [].
Proof.
  intros Hrun.
  assert (Hw : threads after_scenario_timeout !! "A"
               = Some (worker_of "A" after_scenario_timeout))
    by (vm_compute; reflexivity).
  assert (Hq : queues after_scenario_timeout !! "A"
               = Some (queue_of "A" after_scenario_timeout))
    by (vm_compute; reflexivity).
  assert (Hdead : stopped (worker_of "A" after_scenario_timeout)).
  { right. exists AttributeError. vm_compute. reflexivity. }
  assert (Hmode : use_queues (cfg after_scenario_timeout) = true)
    by (vm_compute; reflexivity).
  assert (Hnone : calls after_scenario_timeout = []) by (vm_compute; reflexivity).
  destruct (stranded_run client cpython_empty_attr "A" _ _ tr _ st Hdead Hw Hq Hmode Hrun)
    as (_ & _ & Hcalls & _).
  rewrite Hcalls, Hnone. reflexivity.
Qed.

(** If the timeout were swallowed, [flush] could return with a message
    still in the worker's hands: the drain of C7 rests on the worker
    calling [task_done] once per dequeued item. *)
Remark swallowed_timeout_lets_flush_return_early :
  (fun st => (joining st, delivered "A" (calls st), cur_batch (worker_of "A" st)))
    <$> run accepting_client true (init cfg_default) scenario_stale_msg_flushed
  = Some (None, [msg_of "m1"], [msg_of "m1"; msg_of "m2"]).
Proof. vm_compute. reflexivity. Qed.


(** C8, counterexample.  With [use_queues = False] the exception of
    [put_log_events] comes out of [emit]. *)
Lemma synchronous_emit_raises_delivery_error :
  (emit unreachable_client (init cfg_sync) (record_for "A" "m1")).1
  = Raise (TransportError "EndpointConnectionError").
Proof. vm_compute. reflexivity. Qed.

(** ** The theorems at work on the scenarios *)

(** Scenario C: the first call is refused with the expected token in its
    text, the retry carries "49" and is accepted. *)
Lemma scenario_c_retry :
  sequence_tokens scenario_c_state !! "C" = Some None ∧
  put_log_events stale_client (calls scenario_c_state)
    (first_request scenario_c_state [msg_of "hello"] "C" None)
  = Raise scenario_c_error ∧
  sequenceToken <$> (request <$>
    calls (_submit_batch stale_client scenario_c_state [msg_of "hello"] "C").2)
  = [None; Some "49"%string].
Proof.
  split; [reflexivity|]. split; [reflexivity|].
  destruct (submit_batch_retries_stale_token_once stale_client scenario_c_state
              [msg_of "hello"] "C" None scenario_c_error eq_refl eq_refl)
    as [Hretry _].
  destruct (Hretry _ _ eq_refl (or_intror eq_refl)) as [Hcalls _].
  rewrite Hcalls. reflexivity.
Defined.

Lemma unreachable_store_keeps_token :
  sequence_tokens (_submit_batch unreachable_client scenario_c_state [msg_of "hello"] "C").2
  = sequence_tokens scenario_c_state.
Proof.
  destruct (submit_batch_failure_keeps_token unreachable_client scenario_c_state
              [msg_of "hello"] "C") as [Hfail _].
  apply (Hfail (TransportError "EndpointConnectionError")). reflexivity.
Defined.



Lemma scenario_b_counts :
  1 ≤ max_batch_count cfg_small ∧
  run accepting_client cpython_empty_attr (init cfg_small) scenario_b
  = Some after_scenario_b ∧
  ∀ call, call ∈ calls after_scenario_b ->
    Z.of_nat (length (logEvents (request call))) ≤ 2.
Proof.
  assert (Hrun : run accepting_client cpython_empty_attr (init cfg_small) scenario_b
                 = Some after_scenario_b) by (vm_compute; reflexivity).
  assert (Hmax : 1 ≤ max_batch_count cfg_small) by (simpl; lia).
  split; [exact Hmax|]. split; [exact Hrun|].
  apply (submitted_batches_within_count accepting_client cpython_empty_attr cfg_small
           scenario_b after_scenario_b Hmax Hrun).
Defined.


Lemma scenario_a_then_emit_is_stranded :
  run accepting_client cpython_empty_attr (init cfg_default) scenario_a
  = Some after_scenario_a ∧
  threads after_scenario_a !! "A" = Some (worker_of "A" after_scenario_a) ∧
  queues after_scenario_a !! "A" = Some (queue_of "A" after_scenario_a) ∧
  w_pc (worker_of "A" after_scenario_a) = Left ∧
  emit accepting_client after_scenario_a (record_for "A" "m4")
  = (Return tt,
     set_queues (<["A" := put (Msg (msg_of "m4")) (queue_of "A" after_scenario_a)]>)
       after_scenario_a).
Proof.
  assert (Hrun : run accepting_client cpython_empty_attr (init cfg_default) scenario_a
                 = Some after_scenario_a) by (vm_compute; reflexivity).
  assert (Hw : threads after_scenario_a !! "A" = Some (worker_of "A" after_scenario_a))
    by (vm_compute; reflexivity).
  assert (Hq : queues after_scenario_a !! "A" = Some (queue_of "A" after_scenario_a))
    by (vm_compute; reflexivity).
  assert (Hleft : w_pc (worker_of "A" after_scenario_a) = Left)
    by (vm_compute; reflexivity).
  split; [exact Hrun|]. split; [exact Hw|]. split; [exact Hq|].
  split; [exact Hleft|].
  destruct (emit_after_worker_left_is_stranded accepting_client cpython_empty_attr
              cfg_default scenario_a after_scenario_a "A"
              (worker_of "A" after_scenario_a) (queue_of "A" after_scenario_a)
              Hrun Hw Hq) as (_ & _ & Hstranded).
  destruct (Hstranded Hleft) as [_ Hemit].
  exact (Hemit (record_for "A" "m4") eq_refl).
Defined.


Lemma synchronous_emit_is_submission :
  use_queues (cfg (init cfg_sync)) = false ∧
  emit unreachable_client (init cfg_sync) (record_for "A" "m1")
  = _submit_batch unreachable_client (registered (init cfg_sync) "A") [msg_of "m1"] "A".
Proof.
  split; [reflexivity|].
  destruct (emit_raises_delivery_errors_when_synchronous unreachable_client
              (init cfg_sync) (record_for "A" "m1")) as [_ Hsync].
  apply (Hsync eq_refl). right. reflexivity.
Defined.

(** ** Further properties of the submitter and of [emit] *)

(** X1.  The token taken from the text of a stale-token error never
    contains a space; the text ends with it, and when the text has a
    space the token is exactly what follows one. *)
Theorem rsplit_last_is_spaceless_suffix (text : string) :
  has_space (rsplit_last text) = false ∧
  (∃ pre, text = (pre ++ rsplit_last text)%string) ∧
  (has_space text = true ->
   ∃ pre, text = (pre ++ String " " (rsplit_last text))%string).
Proof.
  induction text as [|c text (IH1 & (pre & IH2) & IH3)]; simpl.
  - split; [reflexivity|]. split; [by exists EmptyString|discriminate].
  - destruct (has_space text) eqn:Hsp.
    + split; [exact IH1|]. split.
      * exists (String c pre).
        change (String c text = String c (pre ++ rsplit_last text)%string).
        by f_equal.
      * intros _. destruct (IH3 eq_refl) as (pre' & Hpre').
        exists (String c pre').
        change (String c text
                = String c (pre' ++ String " " (rsplit_last text))%string).
        by f_equal.
    + destruct (Ascii.eqb c " ") eqn:Hc.
      * apply Ascii.eqb_eq in Hc as ->. split; [exact Hsp|]. split.
        -- by exists (String " " EmptyString).
        -- intros _. by exists EmptyString.
      * split; [simpl; by rewrite Hc|]. split; [by exists EmptyString|discriminate].
Qed.

(** X2.  A submission touches nothing but the call log and the token
    entry of its own stream: configuration, queues, threads, a flush in
    progress and the tokens of the other streams are as they were.  It
    makes at most two calls, each with the handler's log group, the
    given stream and the given batch, and it makes none exactly when the
    stream has no token entry, in which case it raises KeyError. *)
Theorem submit_batch_footprint
    (client : Client) (st : State) (batch : list QueuedMessage) (s : string) :
  let out := _submit_batch client st batch s in
  cfg out.2 = cfg st ∧ queues out.2 = queues st ∧ threads out.2 = threads st ∧
  joining out.2 = joining st ∧
  (∀ s', s' ≠ s -> sequence_tokens out.2 !! s' = sequence_tokens st !! s') ∧
  ∃ new,
    calls out.2 = calls st ++ new ∧
    (length new ≤ 2)%nat ∧
    Forall (fun call => logGroupName (request call) = log_group (cfg st) ∧
                        logStreamName (request call) = s ∧
                        logEvents (request call) = batch) new ∧
    (new = [] <-> sequence_tokens st !! s = None) ∧
    (sequence_tokens st !! s = None -> out.1 = Raise KeyError).
Proof.
  unfold _submit_batch.
  destruct (sequence_tokens st !! s) as [token|] eqn:Htok.
  2: { simpl. repeat split; try done. exists []. rewrite app_nil_r.
       repeat split; auto. }
  set (kw := {| logGroupName := _ |}).
  unfold call_put.
  assert (Hins : ∀ t s', s' ≠ s ->
            <[s := Some t]> (sequence_tokens st) !! s' = sequence_tokens st !! s').
  { intros t s' Hne. by rewrite lookup_insert_ne. }
  destruct (put_log_events client (calls st) kw) as [resp|e] eqn:E1.
  - destruct (rejectedLogEventsInfo resp);
      [|destruct (nextSequenceToken resp) as [t|]]; simpl;
      (repeat split; try done; try apply Hins);
      exists [{| request := kw; reply := Return resp |}];
      (repeat split; try done; try (simpl; lia); try (repeat constructor; done)).
  - assert (Hone : ∀ e0 : exn,
      (cfg st = cfg st ∧ queues st = queues st ∧ threads st = threads st ∧
       joining st = joining st ∧
       (∀ s', s' ≠ s -> sequence_tokens st !! s' = sequence_tokens st !! s') ∧
       ∃ new, calls st ++ [{| request := kw; reply := Raise e0 |}] = calls st ++ new ∧
         (length new ≤ 2)%nat ∧
         Forall (fun call => logGroupName (request call) = log_group (cfg st) ∧
                             logStreamName (request call) = s ∧
                             logEvents (request call) = batch) new ∧
         (new = [] <-> Some token = None) ∧
         (Some token = None -> Raise (A := unit) e0 = Raise KeyError))).
    { intros e0. repeat split; try done.
      exists [{| request := kw; reply := Raise e0 |}].
      repeat split; try done; try (simpl; lia). repeat constructor; done. }
    destruct e as [code text| | | | | |]; try apply Hone.
    destruct (stale_token_code code); [|apply Hone].
    set (first := {| request := kw; reply := Raise (ClientError code text) |}).
    set (kw' := with_token kw (rsplit_last text)).
    simpl calls.
    destruct (put_log_events client (calls st ++ [first]) kw') as [resp|e2] eqn:E2;
      [destruct (rejectedLogEventsInfo resp);
       [|destruct (nextSequenceToken resp) as [t|]]|]; simpl;
      (repeat split; try done; try apply Hins);
      eexists [first; {| request := kw'; reply := _ |}];
      rewrite <- ?app_assoc; simpl;
      (repeat split; try done; try lia; try (repeat constructor; done)).
Qed.

(** X3.  The first [emit] on a stream creates its log stream.  If the
    creation raises anything but a ClientError with code
    ResourceAlreadyExistsException, [emit] raises that exception and the
    handler is exactly as before: the stream is not registered and the
    next [emit] tries again.  If the creation returns, or reports that
    the stream exists, the stream is registered; in queue mode [emit]
    then returns and the stream's token is absent. *)
Theorem emit_provisions_stream (client : Client) (st : State) (record : LogRecord) :
  sequence_tokens st !! rec_name record = None ->
  (∀ e,
     create_log_stream client (log_group (cfg st)) (rec_name record) = Raise e ->
     (∀ text, e ≠ ClientError "ResourceAlreadyExistsException" text) ->
     emit client st record = (Raise e, st)) ∧
  (create_log_stream client (log_group (cfg st)) (rec_name record) = Return tt ∨
   (∃ text, create_log_stream client (log_group (cfg st)) (rec_name record)
            = Raise (ClientError "ResourceAlreadyExistsException" text)) ->
   is_Some (sequence_tokens (emit client st record).2 !! rec_name record) ∧
   (use_queues (cfg st) = true ->
    (emit client st record).1 = Return tt ∧
    sequence_tokens (emit client st record).2 !! rec_name record = Some None)).
Proof.
  intros Hnew. split.
  - intros e Hcreate Hother. unfold emit, _idempotent_create.
    rewrite Hnew, Hcreate.
    destruct e as [code text| | | | | |]; try reflexivity.
    destruct (String.eqb_spec code "ResourceAlreadyExistsException") as [->|Hne];
      [|reflexivity].
    by destruct (Hother text).
  - intros Hcreate.
    assert (Hok : _idempotent_create client (log_group (cfg st)) (rec_name record)
                  = Return tt).
    { unfold _idempotent_create.
      destruct Hcreate as [->|[text ->]]; [reflexivity|].
      by rewrite String.eqb_refl. }
    unfold emit. rewrite Hnew, Hok. simpl.
    assert (Hreg : sequence_tokens
                     (set_sequence_tokens <[rec_name record:=None]> st)
                   !! rec_name record = Some None)
      by (simpl; apply lookup_insert_eq).
    destruct (use_queues (cfg st)) eqn:Hu.
    + simpl. split; [|intros _; split; [done|]];
        destruct (queues st !! rec_name record); simpl;
        rewrite lookup_insert_eq; done.
    + split; [|discriminate].
      apply submit_batch_tokens_mono. by rewrite Hreg.
Qed.

Lemma denied_stream_is_not_registered :
  sequence_tokens (init cfg_default) !! rec_name (record_for "A" "m1") = None ∧
  emit denying_client (init cfg_default) (record_for "A" "m1")
  = (Raise (ClientError "AccessDeniedException" "not authorized"), init cfg_default).
Proof.
  split; [reflexivity|].
  destruct (emit_provisions_stream denying_client (init cfg_default)
              (record_for "A" "m1") eq_refl) as [Hfail _].
  apply Hfail; [reflexivity|]. intros text. discriminate.
Defined.

(** X4.  With [use_queues = False] an [emit] is all or nothing for the
    remote store: if it returns, exactly the record's message was
    accepted on the record's stream, after everything accepted there
    before, and the stream's token is the one handed back; if it raises,
    nothing more was accepted.  Either way no queue and no thread
    appears and what was accepted on other streams is unchanged. *)
Theorem synchronous_emit_is_all_or_nothing
    (client : Client) (st : State) (record : LogRecord) :
  use_queues (cfg st) = false ->
  let s := rec_name record in
  let m := {| timestamp := to_millis (rec_created record);
              message := rec_msg record |} in
  let out := emit client st record in
  match out.1 with
  | Return _ =>
      delivered s (calls out.2) = delivered s (calls st) ++ [m] ∧
      ∃ t, sequence_tokens out.2 !! s = Some (Some t) ∧
           last_token s (calls out.2) = Some t
  | Raise _ => delivered s (calls out.2) = delivered s (calls st)
  end ∧
  queues out.2 = queues st ∧ threads out.2 = threads st ∧
  ∀ s', s' ≠ s -> delivered s' (calls out.2) = delivered s' (calls st).
Proof.
  intros Hu s m out.
  assert (Hreg : queues (registered st s) = queues st ∧
                 threads (registered st s) = threads st ∧
                 calls (registered st s) = calls st).
  { unfold registered. by destruct (sequence_tokens st !! s). }
  destruct Hreg as (Hrq & Hrt & Hrc).
  destruct (emit_cases client st record) as [(e & _ & _ & Hemit)|[[_ Hemit]|[Hu' _]]];
    [| |congruence]; subst out; rewrite Hemit.
  - simpl. repeat split; done.
  - fold s. fold m.
    destruct (submit_batch_spec client (registered st s) [m] s)
      as (new & _ & Hqs & Hts & _ & Hcalls & Hnew & Hres).
    pose proof (fun s' => delivered_submit client (registered st s) [m] s s') as Hd.
    simpl in Hqs, Hts, Hcalls, Hres, Hd.
    split; [|split; [congruence|split; [congruence|]]].
    + pose proof (Hd s) as Hds. rewrite Hrc in Hds.
      destruct (_submit_batch client (registered st s) [m] s).1.
      * rewrite decide_True in Hds by done. split; [exact Hds|].
        destruct Hres as (pre & call & t & -> & _ & Hacc & Htok).
        exists t. split; [by rewrite Htok, lookup_insert_eq|].
        rewrite Hcalls. apply last_token_app_accepted; [|done].
        apply on_stream_true. apply Forall_app in Hnew as [_ Hc].
        by apply Forall_singleton in Hc as [Hc _].
      * by rewrite app_nil_r in Hds.
    + intros s' Hne. rewrite Hd, Hrc.
      destruct (_submit_batch client (registered st s) [m] s).1;
        [rewrite decide_False by done|]; by rewrite app_nil_r.
Qed.

Lemma synchronous_emit_delivers_its_message :
  use_queues (cfg (init cfg_sync)) = false ∧
  delivered "A" (calls (emit accepting_client (init cfg_sync) (record_for "A" "m1")).2)
  = [msg_of "m1"].
Proof.
  split; [reflexivity|].
  pose proof (synchronous_emit_is_all_or_nothing accepting_client (init cfg_sync)
                (record_for "A" "m1") eq_refl) as [Hdel _].
  exact (proj1 Hdel).
Defined.

(** ** Further properties of the stream worker *)

Lemma submit_batch_first_call
    (client : Client) (st : State) (batch : list QueuedMessage) (s : string)
    (token : option string) :
  sequence_tokens st !! s = Some token ->
  ∃ first rest,
    calls (_submit_batch client st batch s).2 = calls st ++ first :: rest ∧
    request first = first_request st batch s token.
Proof.
  intros Htok. unfold _submit_batch. rewrite Htok.
  fold (first_request st batch s token).
  set (kw := first_request st batch s token). unfold call_put.
  destruct (put_log_events client (calls st) kw) as [resp|e] eqn:E1.
  - exists {| request := kw; reply := Return resp |}, []. split; [|done].
    destruct (rejectedLogEventsInfo resp); [|destruct (nextSequenceToken resp)]; done.
  - destruct e as [code text| | | | | |];
      try (by eexists {| request := kw; reply := Raise _ |}, []).
    destruct (stale_token_code code);
      [|by eexists {| request := kw; reply := Raise _ |}, []].
    set (first := {| request := kw; reply := Raise (ClientError code text) |}).
    set (kw' := with_token kw (rsplit_last text)).
    simpl calls.
    exists first,
      [{| request := kw'; reply := put_log_events client (calls st ++ [first]) kw' |}].
    split; [|done].
    destruct (put_log_events client (calls st ++ [first]) kw') as [resp|e2]; simpl;
      [destruct (rejectedLogEventsInfo resp); [|destruct (nextSequenceToken resp)]|];
      simpl; by rewrite <- app_assoc.
Qed.

(** X5.  Batching is greedy.  When the worker checks a dequeued message
    that fits (the batch with it costs at most [max_batch_size], the
    batch holds fewer than [max_batch_count] messages, the deadline has
    not come), it appends the message and makes no request.  When the
    message does not fit, the worker submits the batch as it stands,
    without the message, and keeps the message for the next batch. *)
Theorem check_appends_exactly_what_fits
    (client : Client) (empty_attr : bool) (c : Config) (tr : list event)
    (st st' : State) (s : string) (w : Worker) (m : QueuedMessage) (now : Z) :
  run client empty_attr (init c) tr = Some st ->
  threads st !! s = Some w ->
  w_msg w = Some (Msg m) ->
  step client empty_attr st (Work s (Check now)) = Some st' ->
  let fits :=
    batch_cost (cur_batch w) + size m ≤ max_batch_size c ∧
    Z.of_nat (length (cur_batch w)) < max_batch_count c ∧
    now < cur_batch_deadline w in
  (fits ->
   calls st' = calls st ∧
   ∃ w', threads st' !! s = Some w' ∧ cur_batch w' = cur_batch w ++ [m] ∧
         w_died w' = None) ∧
  (¬ fits ->
   ∃ w' first rest,
     threads st' !! s = Some w' ∧ cur_batch w' = cur_batch w ∧
     w_msg w' = Some (Msg m) ∧
     calls st' = calls st ++ first :: rest ∧
     logEvents (request first) = cur_batch w).
Proof.
  intros Hrun Hth Hmsg Hstep fits.
  destruct (reachable_batches_inv client empty_attr c tr st Hrun) as (Hcfg & Hw & _).
  destruct (Hw s w Hth) as (Hs & Hc & Hsz & Hn & _).
  simpl in Hstep. unfold batch_sender in Hstep. rewrite Hth in Hstep. simpl in Hstep.
  destruct (queues st !! s) as [q|] eqn:Hq; simpl in Hstep; [|done].
  destruct (w_died w) eqn:Hd; [done|].
  destruct (w_pc w); simplify_eq.
  unfold batch_sender_check. rewrite Hmsg.
  destruct (_ || _) eqn:Econd.
  - (* the batch is closed *)
    assert (Hnot : ¬ fits).
    { intros (H1 & H2 & H3).
      apply orb_true_iff in Econd as [Econd|Econd];
        [apply orb_true_iff in Econd as [Econd|Econd]|].
      - apply Z.gtb_lt in Econd. lia.
      - apply Z.geb_le in Econd. lia.
      - apply Z.geb_le in Econd. lia. }
    split; [done|]. intros _.
    destruct (reachable_queue_mode client empty_attr _ tr st Hrun s)
      as [_ [token Htok]]; [by rewrite Hq|].
    destruct (submit_batch_first_call client st (cur_batch w) s token Htok)
      as (first & rest & Hcalls & Hreq).
    unfold close_batch.
    destruct (_submit_batch client st (cur_batch w) s) as [[[]|ex] st1];
      simpl in Hcalls; eexists _, first, rest; simpl; rewrite lookup_insert_eq;
      (split; [reflexivity|]); simpl; by rewrite Hreq.
  - (* the message is appended *)
    apply orb_false_iff in Econd as [Econd Elate].
    apply orb_false_iff in Econd as [Esz Ecnt].
    split.
    + intros _. simpl. split; [done|]. rewrite lookup_insert_eq.
      eexists. split; [reflexivity|]. done.
    + intros Hnot. exfalso. apply Hnot. unfold fits.
      rewrite Z.gtb_ltb in Esz. apply Z.ltb_ge in Esz.
      rewrite Z.geb_leb in Ecnt. apply Z.leb_gt in Ecnt.
      rewrite Z.geb_leb in Elate. apply Z.leb_gt in Elate. lia.
Qed.

Lemma scenario_b_third_message_closes_batch :
  run accepting_client cpython_empty_attr (init cfg_small) scenario_b_third_dequeued
  = Some after_scenario_b_third_dequeued ∧
  threads after_scenario_b_third_dequeued !! "B"
  = Some (worker_of "B" after_scenario_b_third_dequeued) ∧
  w_msg (worker_of "B" after_scenario_b_third_dequeued) = Some (Msg (msg_of "m3")) ∧
  step accepting_client cpython_empty_attr after_scenario_b_third_dequeued
    (Work "B" (Check 3))
  = Some (state_after accepting_client cpython_empty_attr cfg_small
            (scenario_b_third_dequeued ++ [Work "B" (Check 3)])) ∧
  batches_sent (state_after accepting_client cpython_empty_attr cfg_small
                  (scenario_b_third_dequeued ++ [Work "B" (Check 3)]))
  = [[msg_of "m1"; msg_of "m2"]].
Proof.
  assert (Hrun : run accepting_client cpython_empty_attr (init cfg_small)
                   scenario_b_third_dequeued
                 = Some after_scenario_b_third_dequeued) by (vm_compute; reflexivity).
  assert (Hw : threads after_scenario_b_third_dequeued !! "B"
               = Some (worker_of "B" after_scenario_b_third_dequeued))
    by (vm_compute; reflexivity).
  assert (Hmsg : w_msg (worker_of "B" after_scenario_b_third_dequeued)
                 = Some (Msg (msg_of "m3"))) by (vm_compute; reflexivity).
  assert (Hstep : step accepting_client cpython_empty_attr
                    after_scenario_b_third_dequeued (Work "B" (Check 3))
                  = Some (state_after accepting_client cpython_empty_attr cfg_small
                            (scenario_b_third_dequeued ++ [Work "B" (Check 3)])))
    by (vm_compute; reflexivity).
  split; [exact Hrun|]. split; [exact Hw|]. split; [exact Hmsg|].
  split; [exact Hstep|].
  destruct (check_appends_exactly_what_fits accepting_client cpython_empty_attr
              cfg_small scenario_b_third_dequeued after_scenario_b_third_dequeued _
              "B" _ (msg_of "m3") 3 Hrun Hw Hmsg Hstep) as [_ Hcloses].
  destruct Hcloses as (w' & first & rest & _ & _ & _ & Hcalls & Hbatch).
  { vm_compute. intros (H1 & _). apply H1. reflexivity. }
  vm_compute. reflexivity.
Defined.

(** X6.  As CPython runs the module, every item ever put on a stream's
    queue is, at any moment, in exactly one place, and in the order of
    the puts: first the messages the remote store accepted on the
    stream, then what the worker has taken and not delivered, then what
    is still in the queue.  So what the store accepted is always a
    prefix of what was put: nothing is sent twice or out of order. *)
Theorem every_put_item_is_accounted_for
    (client : Client) (c : Config) (tr : list event) (st : State)
    (s : string) (q : Queue) :
  run client cpython_empty_attr (init c) tr = Some st ->
  queues st !! s = Some q ->
  (∃ w, threads st !! s = Some w ∧
        put_history q = (Msg <$> delivered s (calls st)) ++ in_hand w ++ items q) ∧
  (Msg <$> delivered s (calls st)) `prefix_of` put_history q.
Proof.
  intros Hrun Hq.
  destruct (reachable_queue_mode client cpython_empty_attr c tr st Hrun s) as [Hu _];
    [by rewrite Hq|].
  pose proof (reachable_drain_inv client c tr st Hrun Hu s) as Hs.
  unfold drain_inv_at in Hs. rewrite Hq in Hs.
  destruct Hs as (w & Hw & Hh & _). split.
  - by exists w.
  - rewrite Hh. by apply prefix_app_r.
Qed.

Lemma scenario_b_accounted_for :
  run accepting_client cpython_empty_attr (init cfg_small) scenario_b_third_dequeued
  = Some after_scenario_b_third_dequeued ∧
  queues after_scenario_b_third_dequeued !! "B"
  = Some (queue_of "B" after_scenario_b_third_dequeued) ∧
  (Msg <$> delivered "B" (calls after_scenario_b_third_dequeued))
    `prefix_of` put_history (queue_of "B" after_scenario_b_third_dequeued).
Proof.
  assert (Hrun : run accepting_client cpython_empty_attr (init cfg_small)
                   scenario_b_third_dequeued
                 = Some after_scenario_b_third_dequeued) by (vm_compute; reflexivity).
  assert (Hq : queues after_scenario_b_third_dequeued !! "B"
               = Some (queue_of "B" after_scenario_b_third_dequeued))
    by (vm_compute; reflexivity).
  split; [exact Hrun|]. split; [exact Hq|].
  exact (proj2 (every_put_item_is_accounted_for accepting_client cfg_small
                  scenario_b_third_dequeued after_scenario_b_third_dequeued "B"
                  (queue_of "B" after_scenario_b_third_dequeued) Hrun Hq)).
Defined.

(** X7.  As CPython runs the module, a queue's count of unfinished tasks
    is the number of items in the queue, plus one while the worker holds
    a dequeued item it has not acknowledged.  So [task_done] is called
    exactly once per dequeued item: it never raises ValueError, and the
    worker survives it. *)
Theorem task_done_never_raises
    (client : Client) (c : Config) (tr : list event) (st : State)
    (s : string) (q : Queue) (w : Worker) :
  run client cpython_empty_attr (init c) tr = Some st ->
  queues st !! s = Some q ->
  threads st !! s = Some w ->
  unfinished_tasks q = Z.of_nat (length (items q)) + held w ∧
  (∀ st', step client cpython_empty_attr st (Work s TaskDone) = Some st' ->
     ∃ w' q', threads st' !! s = Some w' ∧ w_died w' = None ∧
              queues st' !! s = Some q' ∧ items q' = items q ∧
              unfinished_tasks q' = Z.of_nat (length (items q))).
Proof.
  intros Hrun Hq Hw.
  destruct (reachable_queue_mode client cpython_empty_attr c tr st Hrun s) as [Hu _];
    [by rewrite Hq|].
  pose proof (reachable_drain_inv client c tr st Hrun Hu s) as Hs.
  unfold drain_inv_at in Hs. rewrite Hq, Hw in Hs.
  destruct Hs as (w0 & [= <-] & Hok).
  split; [apply Hok|].
  intros st' Hstep. simpl in Hstep. unfold batch_sender in Hstep.
  rewrite Hw, Hq in Hstep. simpl in Hstep.
  destruct (w_died w) eqn:Hd; [done|].
  destruct (w_pc w) eqn:Hpc; simplify_eq.
  - destruct (drain_ok_task_done_break q w _ Hpc Hok) as (q' & Htd & Hok').
    rewrite Htd in Hstep. simplify_eq. simpl. rewrite !lookup_insert_eq.
    eexists _, q'. repeat split; try done.
    + unfold task_done in Htd. destruct (_ <? _); by simplify_eq.
    + destruct Hok' as [_ Hu']. unfold held in Hu'. simpl in Hu'.
      unfold task_done in Htd. destruct (_ <? _); simplify_eq. simpl in *. lia.
  - destruct (drain_ok_task_done_cont q w _ Hpc Hok) as (q' & Htd & Hok').
    rewrite Htd in Hstep. simplify_eq. simpl. rewrite !lookup_insert_eq.
    eexists _, q'. repeat split; try done.
    + unfold task_done in Htd. destruct (_ <? _); by simplify_eq.
    + destruct Hok' as [_ Hu']. unfold held in Hu'. simpl in Hu'.
      unfold task_done in Htd. destruct (_ <? _); simplify_eq. simpl in *. lia.
Qed.

Lemma scenario_b_unfinished_tasks :
  run accepting_client cpython_empty_attr (init cfg_small) scenario_b_third_dequeued
  = Some after_scenario_b_third_dequeued ∧
  queues after_scenario_b_third_dequeued !! "B"
  = Some (queue_of "B" after_scenario_b_third_dequeued) ∧
  threads after_scenario_b_third_dequeued !! "B"
  = Some (worker_of "B" after_scenario_b_third_dequeued) ∧
  unfinished_tasks (queue_of "B" after_scenario_b_third_dequeued)
  = Z.of_nat (length (items (queue_of "B" after_scenario_b_third_dequeued)))
    + held (worker_of "B" after_scenario_b_third_dequeued).
Proof.
  assert (Hrun : run accepting_client cpython_empty_attr (init cfg_small)
                   scenario_b_third_dequeued
                 = Some after_scenario_b_third_dequeued) by (vm_compute; reflexivity).
  assert (Hq : queues after_scenario_b_third_dequeued !! "B"
               = Some (queue_of "B" after_scenario_b_third_dequeued))
    by (vm_compute; reflexivity).
  assert (Hw : threads after_scenario_b_third_dequeued !! "B"
               = Some (worker_of "B" after_scenario_b_third_dequeued))
    by (vm_compute; reflexivity).
  split; [exact Hrun|]. split; [exact Hq|]. split; [exact Hw|].
  exact (proj1 (task_done_never_raises accepting_client cfg_small
                  scenario_b_third_dequeued after_scenario_b_third_dequeued "B"
                  _ _ Hrun Hq Hw)).
Defined.

(** *** Leaving the loop *)

Lemma left_inv_frame (st st' : State) :
  threads st' = threads st -> left_inv st -> left_inv st'.
Proof. unfold left_inv. by intros ->. Qed.

Lemma left_inv_put_worker (st : State) (s : string) (w : Worker) :
  left_inv st -> (w_pc w = Left -> w_msg w = Some END) ->
  left_inv (put_worker s w st).
Proof.
  intros Hinv Hw s' w'. simpl. destruct (decide (s = s')) as [<-|Hne].
  - rewrite lookup_insert_eq. by intros [= <-].
  - rewrite lookup_insert_ne by done. apply Hinv.
Qed.

Lemma left_inv_step (client : Client) (empty_attr : bool) (st st' : State) (e : event) :
  left_inv st -> step client empty_attr st e = Some st' -> left_inv st'.
Proof.
  intros Hinv Hstep. destruct e as [record| | | |s a]; simpl in Hstep.
  - simplify_eq.
    assert (Hreg : left_inv (registered st (rec_name record))).
    { unfold registered. destruct (sequence_tokens st !! rec_name record); [done|].
      by eapply left_inv_frame. }
    destruct (emit_cases client st record) as [(e & _ & _ & ->)|[[_ ->]|[_ ->]]]; simpl.
    + done.
    + destruct (submit_batch_spec client (registered st (rec_name record))
                  [{| timestamp := to_millis (rec_created record);
                      message := rec_msg record |}] (rec_name record))
        as (new & _ & _ & Hts & _).
      by eapply left_inv_frame.
    + destruct (queues st !! rec_name record).
      * by eapply left_inv_frame.
      * eapply left_inv_frame with
          (st := put_worker (rec_name record) (spawn (cfg st))
                   (registered st (rec_name record))); [done|].
        apply left_inv_put_worker; [exact Hreg|]. discriminate.
  - destruct (joining st); simplify_eq. by eapply left_inv_frame.
  - unfold flush_join in Hstep. destruct (joining st) as [[|s rest]|]; simplify_eq.
    destruct (queues st !! s) as [q|]; simpl in Hstep; [|done].
    destruct (unfinished_tasks q =? 0); simplify_eq. by eapply left_inv_frame.
  - destruct (joining st) as [[|]|]; simplify_eq. by eapply left_inv_frame.
  - unfold batch_sender in Hstep.
    destruct (threads st !! s) as [w|] eqn:Ew; simpl in Hstep; [|done].
    destruct (queues st !! s) as [q|]; simpl in Hstep; [|done].
    destruct (w_died w); [done|].
    destruct (w_pc w) eqn:Epc, a; simplify_eq.
    + apply left_inv_put_worker; [done|]. unfold batch_sender_open.
      destruct (w_msg w) as [[m|]|] eqn:Em; simpl; try discriminate. done.
    + destruct (items q); simplify_eq.
      apply left_inv_put_worker; [by eapply left_inv_frame|]. discriminate.
    + destruct (items q); simplify_eq.
      apply left_inv_put_worker; [done|].
      destruct empty_attr; simpl; [discriminate|]. by rewrite Epc.
    + unfold batch_sender_check, close_batch.
      destruct (submit_batch_spec client st (cur_batch w) s)
        as (new & _ & _ & Hts & _).
      destruct (_submit_batch client st (cur_batch w) s) as [[[]|ex] st1];
        simpl in Hts.
      all: destruct (w_msg w) as [[m|]|]; try destruct (_ || _);
        (apply left_inv_put_worker; [first [done|by eapply left_inv_frame]|]);
        simpl; rewrite ?Epc; discriminate.
    + destruct (task_done q); simplify_eq;
        (apply left_inv_put_worker; [first [done|by eapply left_inv_frame]|]);
        simpl; rewrite ?Epc; discriminate.
    + destruct (task_done q); simplify_eq;
        (apply left_inv_put_worker; [first [done|by eapply left_inv_frame]|]);
        simpl; rewrite ?Epc; discriminate.
Qed.

Lemma reachable_left_inv (client : Client) (empty_attr : bool) (c : Config)
    (tr : list event) (st : State) :
  run client empty_attr (init c) tr = Some st -> left_inv st.
Proof.
  intros Hrun.
  eapply run_invariant; [apply left_inv_step| |exact Hrun].
  intros s w. unfold init. simpl. by rewrite lookup_empty.
Qed.

(** X8.  As CPython runs the module, once a worker has left its loop the
    remote store has accepted, in order, exactly the messages that were
    put on the stream's queue before the first [END], and whatever was
    put after that [END] is still in the queue. *)
Theorem worker_leaves_after_delivering_everything
    (client : Client) (c : Config) (tr : list event) (st : State)
    (s : string) (q : Queue) (w : Worker) :
  run client cpython_empty_attr (init c) tr = Some st ->
  queues st !! s = Some q ->
  threads st !! s = Some w ->
  w_pc w = Left ->
  put_history q = (Msg <$> delivered s (calls st)) ++ END :: items q.
Proof.
  intros Hrun Hq Hw Hleft.
  destruct (reachable_queue_mode client cpython_empty_attr c tr st Hrun s) as [Hu _];
    [by rewrite Hq|].
  pose proof (reachable_drain_inv client c tr st Hrun Hu s) as Hs.
  unfold drain_inv_at in Hs. rewrite Hq, Hw in Hs.
  destruct Hs as (w0 & [= <-] & Hh & _).
  pose proof (reachable_left_inv client cpython_empty_attr c tr st Hrun s w Hw Hleft)
    as Hend.
  unfold in_hand in Hh. rewrite Hleft, Hend in Hh. exact Hh.
Qed.

Lemma scenario_a_delivered_exactly :
  run accepting_client cpython_empty_attr (init cfg_default) scenario_a
  = Some after_scenario_a ∧
  queues after_scenario_a !! "A" = Some (queue_of "A" after_scenario_a) ∧
  threads after_scenario_a !! "A" = Some (worker_of "A" after_scenario_a) ∧
  w_pc (worker_of "A" after_scenario_a) = Left ∧
  put_history (queue_of "A" after_scenario_a)
  = (Msg <$> delivered "A" (calls after_scenario_a))
    ++ END :: items (queue_of "A" after_scenario_a).
Proof.
  assert (Hrun : run accepting_client cpython_empty_attr (init cfg_default) scenario_a
                 = Some after_scenario_a) by (vm_compute; reflexivity).
  assert (Hq : queues after_scenario_a !! "A" = Some (queue_of "A" after_scenario_a))
    by (vm_compute; reflexivity).
  assert (Hw : threads after_scenario_a !! "A" = Some (worker_of "A" after_scenario_a))
    by (vm_compute; reflexivity).
  assert (Hleft : w_pc (worker_of "A" after_scenario_a) = Left)
    by (vm_compute; reflexivity).
  split; [exact Hrun|]. split; [exact Hq|]. split; [exact Hw|]. split; [exact Hleft|].
  exact (worker_leaves_after_delivering_everything accepting_client cfg_default
           scenario_a after_scenario_a "A" _ _ Hrun Hq Hw Hleft).
Defined.

(** *** A flush that cannot return *)

Lemma unfinished_inv_frame (st st' : State) :
  queues st' = queues st -> unfinished_inv st -> unfinished_inv st'.
Proof. unfold unfinished_inv. by intros ->. Qed.

Lemma unfinished_inv_put_queue (st : State) (s : string) (q : Queue) :
  unfinished_inv st -> 0 ≤ unfinished_tasks q -> unfinished_inv (put_queue s q st).
Proof.
  intros Hinv Hq s' q'. simpl. destruct (decide (s = s')) as [<-|Hne].
  - rewrite lookup_insert_eq. by intros [= <-].
  - rewrite lookup_insert_ne by done. apply Hinv.
Qed.

Lemma unfinished_inv_step (client : Client) (empty_attr : bool)
    (st st' : State) (e : event) :
  unfinished_inv st -> step client empty_attr st e = Some st' -> unfinished_inv st'.
Proof.
  intros Hinv Hstep. destruct e as [record| | | |s a]; simpl in Hstep.
  - simplify_eq.
    assert (Hreg : queues (registered st (rec_name record)) = queues st).
    { unfold registered. by destruct (sequence_tokens st !! rec_name record). }
    destruct (emit_cases client st record) as [(e & _ & _ & ->)|[[_ ->]|[_ ->]]]; simpl.
    + done.
    + destruct (submit_batch_spec client (registered st (rec_name record))
                  [{| timestamp := to_millis (rec_created record);
                      message := rec_msg record |}] (rec_name record))
        as (new & _ & Hqs & _).
      eapply unfinished_inv_frame; [|exact Hinv]. simpl in Hqs. congruence.
    + intros s q. destruct (decide (rec_name record = s)) as [<-|Hne].
      * destruct (queues st !! rec_name record) as [q0|] eqn:Eq0; simpl;
          rewrite lookup_alter_eq.
        -- rewrite Hreg, Eq0. simpl. intros [= <-]. simpl.
           specialize (Hinv _ _ Eq0). lia.
        -- rewrite lookup_insert_eq. simpl. intros [= <-]. simpl. lia.
      * destruct (queues st !! rec_name record); simpl;
          rewrite lookup_alter_ne by done;
          rewrite ?lookup_insert_ne by done; rewrite Hreg; apply Hinv.
  - destruct (joining st); simplify_eq. intros s q. simpl. rewrite lookup_fmap.
    destruct (queues st !! s) as [q0|] eqn:Eq0; simpl; [|done].
    intros [= <-]. simpl. specialize (Hinv _ _ Eq0). lia.
  - unfold flush_join in Hstep. destruct (joining st) as [[|s rest]|]; simplify_eq.
    destruct (queues st !! s) as [q|]; simpl in Hstep; [|done].
    by destruct (unfinished_tasks q =? 0); simplify_eq.
  - by destruct (joining st) as [[|]|]; simplify_eq.
  - unfold batch_sender in Hstep.
    destruct (threads st !! s) as [w|] eqn:Ew; simpl in Hstep; [|done].
    destruct (queues st !! s) as [q|] eqn:Eq; simpl in Hstep; [|done].
    pose proof (Hinv _ _ Eq) as Hq.
    destruct (w_died w); [done|].
    destruct (w_pc w), a; simplify_eq; try (by eapply unfinished_inv_frame).
    + destruct (items q); simplify_eq.
      eapply unfinished_inv_frame with (st := put_queue s _ st); [done|].
      by apply unfinished_inv_put_queue.
    + destruct (items q); simplify_eq. by eapply unfinished_inv_frame.
    + unfold batch_sender_check, close_batch.
      destruct (submit_batch_spec client st (cur_batch w) s)
        as (new & _ & Hqs & _).
      destruct (_submit_batch client st (cur_batch w) s) as [[[]|ex] st1];
        simpl in Hqs.
      all: destruct (w_msg w) as [[m|]|]; try destruct (_ || _);
        (eapply unfinished_inv_frame; [|exact Hinv]); simpl; congruence.
    + destruct (task_done q) as [q'|] eqn:Etd; simplify_eq;
        [|by eapply unfinished_inv_frame].
      eapply unfinished_inv_frame with (st := put_queue s q' st); [done|].
      apply unfinished_inv_put_queue; [done|].
      unfold task_done in Etd. destruct (_ <? _) eqn:El; simplify_eq.
      simpl. by apply Z.ltb_ge in El.
    + destruct (task_done q) as [q'|] eqn:Etd; simplify_eq;
        [|by eapply unfinished_inv_frame].
      eapply unfinished_inv_frame with (st := put_queue s q' st); [done|].
      apply unfinished_inv_put_queue; [done|].
      unfold task_done in Etd. destruct (_ <? _) eqn:El; simplify_eq.
      simpl. by apply Z.ltb_ge in El.
Qed.

Lemma reachable_unfinished_inv (client : Client) (empty_attr : bool) (c : Config)
    (tr : list event) (st : State) :
  run client empty_attr (init c) tr = Some st -> unfinished_inv st.
Proof.
  intros Hrun.
  eapply run_invariant; [apply unfinished_inv_step| |exact Hrun].
  intros s q. unfold init. simpl. by rewrite lookup_empty.
Qed.

Lemma flush_stuck_step (client : Client) (empty_attr : bool) (s : string)
    (w : Worker) (st st' : State) (e : event) :
  stopped w -> flush_stuck s w st -> step client empty_attr st e = Some st' ->
  flush_stuck s w st'.
Proof.
  intros Hstop (Hth & (q & Hq & Hu) & pending & Hj & Hin) Hstep.
  destruct e as [record| | | |s' a]; simpl in Hstep.
  - simplify_eq.
    assert (Hreg : queues (registered st (rec_name record)) = queues st ∧
                   threads (registered st (rec_name record)) = threads st ∧
                   joining (registered st (rec_name record)) = joining st).
    { unfold registered. by destruct (sequence_tokens st !! rec_name record). }
    destruct Hreg as (Hrq & Hrt & Hrj).
    destruct (emit_cases client st record) as [(e & _ & _ & ->)|[[_ ->]|[_ ->]]]; simpl.
    + repeat split; eauto.
    + destruct (submit_batch_spec client (registered st (rec_name record))
                  [{| timestamp := to_millis (rec_created record);
                      message := rec_msg record |}] (rec_name record))
        as (new & _ & Hqs & Hts & Hjs & _). cbv zeta in Hqs, Hts, Hjs.
      rewrite Hrq in Hqs. rewrite Hrt in Hts. rewrite Hrj in Hjs.
      unfold flush_stuck. rewrite Hqs, Hts, Hjs. eauto 10.
    + destruct (decide (rec_name record = s)) as [Heq|Hne].
      * rewrite Heq in *. rewrite Hq. unfold flush_stuck. simpl.
        rewrite Hrt, Hrj, Hrq.
        split; [done|]. split; [|eauto].
        rewrite lookup_alter_eq, Hq. simpl. eexists. split; [done|]. simpl. lia.
      * unfold flush_stuck.
        destruct (queues st !! rec_name record); simpl;
          rewrite ?Hrt, ?Hrj, ?Hrq;
          rewrite lookup_alter_ne by done; rewrite ?lookup_insert_ne by done;
          eauto 10.
  - by rewrite Hj in Hstep.
  - unfold flush_join in Hstep. rewrite Hj in Hstep.
    destruct pending as [|s0 rest]; [done|].
    destruct (queues st !! s0) as [q0|] eqn:Eq0; simpl in Hstep; [|done].
    destruct (unfinished_tasks q0 =? 0) eqn:Ez; simplify_eq.
    apply Z.eqb_eq in Ez.
    apply elem_of_cons in Hin as [->|Hin].
    + simplify_eq. lia.
    + unfold flush_stuck. simpl. eauto 10.
  - rewrite Hj in Hstep. destruct pending; [|done]. by apply elem_of_nil in Hin.
  - unfold batch_sender in Hstep.
    destruct (threads st !! s') as [w'|] eqn:Ew; simpl in Hstep; [|done].
    destruct (queues st !! s') as [q1|] eqn:Eq1; simpl in Hstep; [|done].
    destruct (decide (s' = s)) as [->|Hne].
    { simplify_eq. destruct Hstop as [Hpc|[ex Hd]].
      - rewrite Hpc in Hstep. by destruct (w_died w).
      - by rewrite Hd in Hstep. }
    unfold flush_stuck.
    destruct (w_died w'); [done|].
    destruct (w_pc w'), a; simplify_eq; simpl;
      try (rewrite !lookup_insert_ne by done; by eauto 10).
    + destruct (items q1); simplify_eq. simpl.
      rewrite !lookup_insert_ne by done. eauto 10.
    + destruct (items q1); simplify_eq. simpl.
      rewrite !lookup_insert_ne by done. eauto 10.
    + unfold batch_sender_check, close_batch.
      destruct (submit_batch_spec client st (cur_batch w') s')
        as (new & _ & Hqs & Hts & Hjs & _).
      destruct (_submit_batch client st (cur_batch w') s') as [[[]|ex] st1];
        simpl in Hqs, Hts, Hjs.
      all: destruct (w_msg w') as [[m|]|]; try destruct (_ || _); simpl;
        rewrite ?Hqs, ?Hts, ?Hjs; rewrite !lookup_insert_ne by done; eauto 10.
    + destruct (task_done q1); simplify_eq; simpl;
        rewrite !lookup_insert_ne by done; eauto 10.
    + destruct (task_done q1); simplify_eq; simpl;
        rewrite !lookup_insert_ne by done; eauto 10.
Qed.

(** X9.  A [flush] called when the worker of some stream has stopped
    (it left its loop after an earlier [flush], or an exception ended
    it) never returns: the [END] it puts on that stream's queue is never
    taken, the queue keeps unfinished tasks, and the [join] on it blocks
    at every later moment, whatever the other threads do. *)
Theorem flush_after_worker_stopped_never_returns
    (client : Client) (empty_attr : bool) (c : Config) (tr0 tr : list event)
    (st st' : State) (s : string) (w : Worker) (q : Queue) :
  run client empty_attr (init c) tr0 = Some st ->
  threads st !! s = Some w ->
  stopped w ->
  queues st !! s = Some q ->
  run client empty_attr st (FlushCall :: tr) = Some st' ->
  (∃ pending, joining st' = Some pending ∧ s ∈ pending) ∧
  step client empty_attr st' FlushReturn = None.
Proof.
  intros Hrun Hth Hstop Hq Hflush.
  simpl in Hflush. destruct (joining st) eqn:Hj; [done|]. simpl in Hflush.
  assert (Hstuck : flush_stuck s w st').
  { apply (run_invariant client empty_attr (flush_stuck s w))
      with (tr := tr) (st := flush_put st); [| |done].
    - intros ? ? ?. by apply flush_stuck_step.
    - pose proof (reachable_unfinished_inv client empty_attr c tr0 st Hrun s q Hq).
      unfold flush_stuck, flush_put. simpl. split; [done|]. split.
      + exists (put END q). rewrite lookup_fmap, Hq. split; [done|]. simpl. lia.
      + eexists. split; [done|].
        apply list_elem_of_fmap. exists (s, q). split; [done|].
        by apply elem_of_map_to_list. }
  destruct Hstuck as (_ & _ & pending & Hp & Hin).
  split; [by exists pending|].
  simpl. rewrite Hp. destruct pending; [by apply elem_of_nil in Hin|done].
Qed.

Lemma second_flush_never_returns :
  run accepting_client cpython_empty_attr (init cfg_default) scenario_a
  = Some after_scenario_a ∧
  threads after_scenario_a !! "A" = Some (worker_of "A" after_scenario_a) ∧
  stopped (worker_of "A" after_scenario_a) ∧
  queues after_scenario_a !! "A" = Some (queue_of "A" after_scenario_a) ∧
  run accepting_client cpython_empty_attr after_scenario_a [FlushCall]
  = Some (flush_put after_scenario_a) ∧
  step accepting_client cpython_empty_attr (flush_put after_scenario_a) FlushReturn
  = None.
Proof.
  assert (Hrun : run accepting_client cpython_empty_attr (init cfg_default) scenario_a
                 = Some after_scenario_a) by (vm_compute; reflexivity).
  assert (Hw : threads after_scenario_a !! "A" = Some (worker_of "A" after_scenario_a))
    by (vm_compute; reflexivity).
  assert (Hstop : stopped (worker_of "A" after_scenario_a))
    by (left; vm_compute; reflexivity).
  assert (Hq : queues after_scenario_a !! "A" = Some (queue_of "A" after_scenario_a))
    by (vm_compute; reflexivity).
  assert (Hflush : run accepting_client cpython_empty_attr after_scenario_a [FlushCall]
                   = Some (flush_put after_scenario_a)) by (vm_compute; reflexivity).
  split; [exact Hrun|]. split; [exact Hw|]. split; [exact Hstop|].
  split; [exact Hq|]. split; [exact Hflush|].
  exact (proj2 (flush_after_worker_stopped_never_returns accepting_client
                  cpython_empty_attr cfg_default scenario_a [] after_scenario_a
                  (flush_put after_scenario_a) "A" _ _ Hrun Hw Hstop Hq Hflush)).
Defined.

(** *** What the queues hold *)







